(** * SafeSlice: a slice that is safe to modify during range traversals

    Shallow embedding of [safeslice.go].  Go slices are modelled over an
    explicit heap of backing arrays, so that the aliasing between the slice
    held by a [SafeSlice] and the slices previously returned by [Get] is
    part of the model. *)

From stdpp Require Import base list numbers.

(** ** Go [int] (64 bit, two's complement) *)

Definition int_min : Z := (- 2 ^ 63)%Z.
Definition int_max : Z := (2 ^ 63 - 1)%Z.

Definition wrap (z : Z) : Z := ((z + 2 ^ 63) `mod` 2 ^ 64 - 2 ^ 63)%Z.
Definition int_add (a b : Z) : Z := wrap (a + b).
Definition int_sub (a b : Z) : Z := wrap (a - b).

(** A length fits a Go [int]. *)
Definition fits_int (n : nat) : Prop := (Z.of_nat n <= int_max)%Z.

(** ** Slice headers *)

Definition loc := nat.

(** A slice header: pointer to the backing array ([None] is the nil
    pointer), offset of the first element inside that array, length and
    capacity. *)
Record slice := Slice { ptr : option loc; off : nat; len : nat; cap : nat }.

Definition nil_slice : slice := Slice None 0 0 0.

(** [type SafeSlice[T any] struct { data []T; appendOnlyAlloc bool }] *)
Record SafeSlice := MkSafeSlice { data : slice; appendOnlyAlloc : bool }.

(** ** Computations that may panic

    The run-time panics of Go that the package can raise (index out of
    range, slice bounds out of range, makeslice: len out of range) all stem
    from an index outside the container and are not told apart. *)

Inductive res (A : Type) : Type :=
| Ok (a : A)
| Panic.
Arguments Ok {A} a.
Arguments Panic {A}.

(** State passing with panics; the state reached at the point of the panic
    is kept (a deferred [recover] observes it). *)
Definition M (S A : Type) : Type := S → res A * S.

Definition ret {S A} (a : A) : M S A := λ s, (Ok a, s).
Definition panic {S A} : M S A := λ s, (Panic, s).
Definition bind {S A B} (c : M S A) (k : A → M S B) : M S B :=
  λ s, match c s with
       | (Ok a, s') => k a s'
       | (Panic, s') => (Panic, s')
       end.

Declare Scope go_scope.
Delimit Scope go_scope with go.
Notation "x <- c ;; k" := (bind c (λ x, k))
  (at level 62, c at next level, right associativity) : go_scope.
Notation "c ;;; k" := (bind c (λ _, k))
  (at level 62, right associativity) : go_scope.
Local Open Scope go_scope.

Section Runtime.
Context {T : Type}.

(** The zero value of [T]. *)
Variable zero : T.
(** Spare capacity the runtime adds when [append] has to grow a slice of
    capacity [c] to hold [n] elements (Go leaves the amount to the
    implementation). *)
Variable extra : nat → nat → nat.
(** Whether [slices.Delete] zeroes the vacated tail (later releases of
    golang.org/x/exp/slices do, earlier ones do not). *)
Variable delete_clears : bool.

Local Abbreviation heap := (list (list T)).

(** *** Memory *)

Definition load (h : heap) (p : option loc) : list T :=
  match p with
  | Some l => default [] (h !! l)
  | None => []
  end.

Definition store (h : heap) (p : option loc) (a : list T) : heap :=
  match p with
  | Some l => <[l := a]> h
  | None => h
  end.

Definition alloc (a : list T) : M heap loc :=
  λ h, (Ok (length h), h ++ [a]).

(** The elements a slice denotes in a heap. *)
Definition elems (h : heap) (s : slice) : list T :=
  take (len s) (drop (off s) (load h (ptr s))).

(** Write [xs] into the backing array of [s], starting at the [k]-th
    element of [s]. *)
Definition write (s : slice) (k : nat) (xs : list T) : M heap unit :=
  λ h, (Ok tt, store h (ptr s) (list_inserts (off s + k) xs (load h (ptr s)))).

(** *** Built-ins *)

(** [make([]T, n)] *)
Definition make (n : Z) : M heap slice :=
  if decide (n < 0)%Z then panic
  else l <- alloc (replicate (Z.to_nat n) zero) ;;
       ret (Slice (Some l) 0 (Z.to_nat n) (Z.to_nat n)).

(** [[]T{}] *)
Definition lit_empty : M heap slice :=
  l <- alloc [] ;; ret (Slice (Some l) 0 0 0).

(** [s[lo:hi]] *)
Definition reslice (s : slice) (lo hi : Z) : M heap slice :=
  if decide (0 ≤ lo ≤ hi ∧ hi ≤ Z.of_nat (cap s))%Z
  then ret (Slice (ptr s) (off s + Z.to_nat lo) (Z.to_nat (hi - lo))
                  (cap s - Z.to_nat lo))
  else panic.

(** [s[:hi]] and [s[lo:]] *)
Definition reslice_to (s : slice) (hi : Z) : M heap slice := reslice s 0 hi.
Definition reslice_from (s : slice) (lo : Z) : M heap slice :=
  reslice s lo (Z.of_nat (len s)).

(** [copy(dst, src)]: copies [min(len(dst), len(src))] elements, with
    [memmove] semantics (the source is read before the destination is
    written). *)
Definition copy (dst src : slice) : M heap unit :=
  λ h, write dst 0 (take (Nat.min (len dst) (len src)) (elems h src)) h.

(** [append(s, xs...)] for the values [xs]: in place when the capacity
    suffices, otherwise into a newly allocated array. *)
Definition append_vals (s : slice) (xs : list T) : M heap slice :=
  let n := len s + length xs in
  if decide (n ≤ cap s) then
    write s (len s) xs ;;;
    ret (Slice (ptr s) (off s) n (cap s))
  else
    λ h, (l <- alloc (elems h s ++ xs ++ replicate (extra (cap s) n) zero) ;;
          ret (Slice (Some l) 0 n (n + extra (cap s) n))) h.

(** [append(s, src...)] *)
Definition append (s src : slice) : M heap slice :=
  λ h, append_vals s (elems h src) h.

(** [clear(s)] *)
Definition clear (s : slice) : M heap unit :=
  write s 0 (replicate (len s) zero).

(** [s[i]] as a value; memory outside every array reads as zero. *)
Definition index (s : slice) (i : Z) : M heap T :=
  if decide (0 ≤ i < Z.of_nat (len s))%Z
  then λ h, (Ok (default zero (elems h s !! Z.to_nat i)), h)
  else panic.

(** [s[i] = x] *)
Definition set_index (s : slice) (i : Z) (x : T) : M heap unit :=
  if decide (0 ≤ i < Z.of_nat (len s))%Z
  then write s (Z.to_nat i) [x]
  else panic.

(** *** golang.org/x/exp/slices

    [func Delete(s S, i, j int) S]:
    [_ = s[i:j]; oldlen := len(s); s = append(s[:i], s[j:]...);
     clear(s[len(s):oldlen]); return s], the [clear] being present in
    the releases selected by [delete_clears]. *)
Definition slices_Delete (s : slice) (i j : Z) : M heap slice :=
  _ <- reslice s i j ;;
  a <- reslice_to s i ;;
  b <- reslice_from s j ;;
  r <- append a b ;;
  (if delete_clears
   then t <- reslice r (Z.of_nat (len r)) (Z.of_nat (len s)) ;; clear t
   else ret tt) ;;;
  ret r.

(** *** safeslice.go *)

(** [copyDeleteFromArray] functionally deletes index [i] from [s] and
    returns the newly allocated array without the removed element. *)
Definition copyDeleteFromArray (s : slice) (i : Z) : M heap slice :=
  b <- make (int_sub (Z.of_nat (len s)) 1) ;;
  bi <- reslice_to b i ;;
  si <- reslice_to s i ;;
  copy bi si ;;;
  (if decide (i < int_sub (Z.of_nat (len s)) 1)%Z
   then bt <- reslice_from b i ;;
        st <- reslice_from s (int_add i 1) ;;
        copy bt st
   else ret tt) ;;;
  ret b.

(** The receiver [s *SafeSlice[T]] together with the heap. *)
Record machine := Machine { mem : heap; self : SafeSlice }.

Definition run_heap {A} (c : M heap A) : M machine A :=
  λ m, let '(r, h) := c (mem m) in (r, Machine h (self m)).

Definition get_data : M machine slice := λ m, (Ok (data (self m)), m).
Definition get_appendOnlyAlloc : M machine bool :=
  λ m, (Ok (appendOnlyAlloc (self m)), m).
Definition set_data (d : slice) : M machine unit :=
  λ m, (Ok tt, Machine (mem m) (MkSafeSlice d (appendOnlyAlloc (self m)))).
Definition set_appendOnlyAlloc (b : bool) : M machine unit :=
  λ m, (Ok tt, Machine (mem m) (MkSafeSlice (data (self m)) b)).

(** [func (s *SafeSlice[T]) Append(elem T)] *)
Definition Append (elem : T) : M machine unit :=
  d <- get_data ;;
  d' <- run_heap (append_vals d [elem]) ;;
  set_data d'.

(** [func (s *SafeSlice[T]) Remove(index int)] *)
Definition Remove (index : Z) : M machine unit :=
  f <- get_appendOnlyAlloc ;;
  if f then
    d <- get_data ;;
    b <- run_heap (copyDeleteFromArray d index) ;;
    set_data b ;;;
    set_appendOnlyAlloc false
  else
    d <- get_data ;;
    r <- run_heap (slices_Delete d index (int_add index 1)) ;;
    set_data r.

(** [func (s *SafeSlice[T]) Swap(i, j int)] *)
Definition Swap (i j : Z) : M machine unit :=
  if decide (i = j) then ret tt
  else
    f <- get_appendOnlyAlloc ;;
    (if f then
       e <- run_heap lit_empty ;;
       d <- get_data ;;
       c <- run_heap (append e d) ;;
       set_data c ;;;
       set_appendOnlyAlloc false
     else ret tt) ;;;
    d <- get_data ;;
    swap <- run_heap (index d i) ;;
    d <- get_data ;;
    x <- run_heap (index d j) ;;
    d <- get_data ;;
    run_heap (set_index d i x) ;;;
    d <- get_data ;;
    run_heap (set_index d j swap).

(** [func (s *SafeSlice[T]) Get() []T] *)
Definition Get : M machine slice :=
  set_appendOnlyAlloc true ;;;
  get_data.

(** [func New[T any]() *SafeSlice[T]], in a heap [h]. *)
Definition New (h : heap) : machine := Machine h (MkSafeSlice nil_slice false).

(** The two phases of [Swap] for distinct indices, named for the proofs:
    the defensive copy [s.data = append([]T{}, s.data...);
    s.appendOnlyAlloc = false], and the exchange of the two elements. *)
Definition swap_detach : M machine unit :=
  e <- run_heap lit_empty ;;
  d <- get_data ;;
  c <- run_heap (append e d) ;;
  set_data c ;;;
  set_appendOnlyAlloc false.

Definition swap_exchange (i j : Z) : M machine unit :=
  d <- get_data ;;
  swap <- run_heap (index d i) ;;
  d <- get_data ;;
  x <- run_heap (index d j) ;;
  d <- get_data ;;
  run_heap (set_index d i x) ;;;
  d <- get_data ;;
  run_heap (set_index d j swap).

(** *** Callers *)

(** The calls a caller can make on a [SafeSlice]. *)
Inductive op : Type :=
| OpAppend (elem : T)
| OpRemove (index : Z)
| OpSwap (i j : Z)
| OpGet.

Definition exec (o : op) : M machine unit :=
  match o with
  | OpAppend elem => Append elem
  | OpRemove index => Remove index
  | OpSwap i j => Swap i j
  | OpGet => _ <- Get ;; ret tt
  end.

(** A caller performing the calls in order; a call that panics is recovered
    from and the caller goes on from the state the panic left. *)
Fixpoint run (os : list op) (m : machine) : machine :=
  match os with
  | [] => m
  | o :: os => run os (snd (exec o m))
  end.

(** [for range v { body }]: the range expression is evaluated once, so the
    number of iterations is fixed by the length of [v] when the loop starts. *)
Fixpoint for_range (n : nat) (body : M machine unit) : M machine unit :=
  match n with
  | 0 => ret tt
  | S n => body ;;; for_range n body
  end.

(** [for range a.Get() { a.Remove(0) }] *)
Definition evict_front : M machine unit :=
  v <- Get ;;
  for_range (len v) (Remove 0).

(** The contents of the container. *)
Definition contents (m : machine) : list T := elems (mem m) (data (self m)).

(** *** Well-formedness *)

(** A pointer is nil or points to an allocated array. *)
Definition valid (h : heap) (p : option loc) : Prop :=
  match p with
  | Some l => l < length h
  | None => True
  end.

(** A slice header lies inside its backing array. *)
Definition wf_slice (h : heap) (s : slice) : Prop :=
  len s ≤ cap s ∧ off s + cap s ≤ length (load h (ptr s)) ∧ valid h (ptr s).

Definition wf (m : machine) : Prop := wf_slice (mem m) (data (self m)).

(** A view [v] handed out earlier is protected: if it still shares its
    backing array with the container, the flag is set and the view is a
    prefix of the container. *)
Definition protected (m : machine) (v : slice) : Prop :=
  wf_slice (mem m) v ∧
  (ptr v = ptr (data (self m)) →
   appendOnlyAlloc (self m) = true ∧
   off v = off (data (self m)) ∧ len v ≤ len (data (self m))).

(** *** The flag as a state machine *)

Inductive state : Type := Exclusive | Shared.

Definition state_of (m : machine) : state :=
  if appendOnlyAlloc (self m) then Shared else Exclusive.

(** The transitions of the specification. *)
Definition next (st : state) (o : op) : state :=
  match o with
  | OpGet => Shared
  | OpAppend _ => st
  | OpRemove _ => Exclusive
  | OpSwap i j => if decide (i = j) then st else Exclusive
  end.

(** A destructive call: [Remove], or [Swap] with distinct indices. *)
Definition destructive (o : op) : Prop :=
  match o with
  | OpRemove _ => True
  | OpSwap i j => i ≠ j
  | _ => False
  end.

Definition is_get (o : op) : Prop :=
  match o with OpGet => True | _ => False end.

(** The call left the heap as it was up to newly allocated arrays, and the
    container now points to one of those. *)
Definition fresh_storage (m m' : machine) : Prop :=
  (∃ junk, mem m' = mem m ++ junk) ∧
  ∃ l, ptr (data (self m')) = Some l ∧ length (mem m) ≤ l < length (mem m').

(** The call allocated nothing and the container kept its backing array. *)
Definition in_place (m m' : machine) : Prop :=
  length (mem m') = length (mem m) ∧
  ptr (data (self m')) = ptr (data (self m)).

(** An index is within the bounds of the container. *)
Definition in_range (m : machine) (i : Z) : Prop :=
  (0 ≤ i < Z.of_nat (len (data (self m))))%Z.

(** How one call, or one phase of a call, can change the machine:
    - it only allocates, and the container keeps its slice (its flag is at
      most raised) or moves to a newly allocated array;
    - it writes into the backing array of the container, the flag being
      clear before and after;
    - it writes behind the last element of the container and extends the
      container over what it wrote. *)
Inductive evolves (m m' : machine) : Prop :=
| evolves_alloc (junk : heap) :
    mem m' = mem m ++ junk →
    (data (self m') = data (self m) ∧
     (appendOnlyAlloc (self m) = true → appendOnlyAlloc (self m') = true)) ∨
    (∃ l, ptr (data (self m')) = Some l ∧ length (mem m) ≤ l ∧
          wf_slice (mem m') (data (self m'))) →
    evolves m m'
| evolves_write (a : list T) :
    appendOnlyAlloc (self m) = false →
    appendOnlyAlloc (self m') = false →
    mem m' = store (mem m) (ptr (data (self m))) a →
    length a = length (load (mem m) (ptr (data (self m)))) →
    ptr (data (self m')) = ptr (data (self m)) →
    off (data (self m')) = off (data (self m)) →
    cap (data (self m')) = cap (data (self m)) →
    len (data (self m')) ≤ cap (data (self m')) →
    evolves m m'
| evolves_append (xs : list T) :
    mem m' = store (mem m) (ptr (data (self m)))
               (list_inserts (off (data (self m)) + len (data (self m))) xs
                  (load (mem m) (ptr (data (self m))))) →
    data (self m') =
      Slice (ptr (data (self m))) (off (data (self m)))
            (len (data (self m)) + length xs) (cap (data (self m))) →
    len (data (self m)) + length xs ≤ cap (data (self m)) →
    appendOnlyAlloc (self m') = appendOnlyAlloc (self m) →
    evolves m m'.

(** *** More callers

    The loops of the package documentation and of its tests. *)

(** [for _, x := range v { body(x) }] from index [i] on, [n] iterations
    left: the slice [v] was evaluated once, and every iteration reads
    [v[i]] from the backing array as it is then. *)
Fixpoint range_from (v : slice) (body : T → M machine unit) (i n : nat) :
    M machine unit :=
  match n with
  | 0 => ret tt
  | S n =>
      x <- run_heap (index v (Z.of_nat i)) ;;
      body x ;;;
      range_from v body (S i) n
  end.

Definition for_range_values (v : slice) (body : T → M machine unit) :
    M machine unit :=
  range_from v body 0 (len v).

(** [for _, value := range a.Get() { a.Append(value) }] *)
Definition append_while_range : M machine unit :=
  v <- Get ;;
  for_range_values v Append.

(** [for len(a.Get()) > 0 { a.Remove(0) }], at most [fuel] tests of the
    condition; the result tells whether the loop was left by its condition. *)
Fixpoint drain (fuel : nat) : M machine bool :=
  match fuel with
  | 0 => ret false
  | S fuel =>
      v <- Get ;;
      if decide (0 < len v) then Remove 0 ;;; drain fuel else ret true
  end.

(** [for i := 0; i < len(a.Get()); i++ { a.Remove(i) }] from [i] on, at
    most [fuel] tests of the condition. *)
Fixpoint remove_each (fuel : nat) (i : Z) : M machine bool :=
  match fuel with
  | 0 => ret false
  | S fuel =>
      v <- Get ;;
      if decide (i < Z.of_nat (len v))%Z
      then Remove i ;;; remove_each fuel (int_add i 1)
      else ret true
  end.

(** The elements at the odd positions of a list. *)
Fixpoint odds (l : list T) : list T :=
  match l with
  | _ :: y :: l => y :: odds l
  | _ => []
  end.

(** ** Properties *)

(** *** Go integers *)

Lemma wrap_id (z : Z) : (int_min ≤ z ≤ int_max)%Z → wrap z = z.
Proof.
  unfold wrap, int_min, int_max. intros Hz.
  rewrite Z.mod_small by lia. lia.
Qed.

Lemma int_sub_len (n : nat) : fits_int n → int_sub (Z.of_nat n) 1 = (Z.of_nat n - 1)%Z.
Proof.
  unfold fits_int, int_sub, int_max. intros Hn.
  apply wrap_id. unfold int_min, int_max. lia.
Qed.

Lemma int_add_index (n : nat) (i : Z) :
  fits_int n → (0 ≤ i < Z.of_nat n)%Z → int_add i 1 = (i + 1)%Z.
Proof.
  unfold fits_int, int_add, int_max. intros Hn Hi.
  apply wrap_id. unfold int_min, int_max. lia.
Qed.

(** Where [i + 1] overflows, the result lies below [i]. *)
Lemma int_add_cases (i : Z) :
  (0 ≤ i)%Z → int_add i 1 = (i + 1)%Z ∨ (int_add i 1 < i)%Z.
Proof.
  intros Hi. unfold int_add, wrap.
  rewrite Z.mod_eq by lia.
  assert (0 ≤ (i + 1 + 2 ^ 63) `div` 2 ^ 64)%Z as Hq by (apply Z.div_pos; lia).
  destruct (decide ((i + 1 + 2 ^ 63) `div` 2 ^ 64 = 0)%Z) as [->|Hne]; [left|right]; lia.
Qed.

(** *** Memory *)

Lemma load_app (h junk : heap) (p : option loc) :
  valid h p → load (h ++ junk) p = load h p.
Proof.
  destruct p as [l|]; simpl; [|done].
  intros Hl. by rewrite lookup_app_l.
Qed.

Lemma load_app_new (h : heap) (a : list T) (junk : heap) :
  load (h ++ a :: junk) (Some (length h)) = a.
Proof. simpl. by rewrite list_lookup_middle. Qed.

Lemma store_app_new (h : heap) (a a' : list T) (junk : heap) :
  store (h ++ a :: junk) (Some (length h)) a' = h ++ a' :: junk.
Proof.
  simpl. rewrite insert_app_r_alt by lia.
  by rewrite Nat.sub_diag.
Qed.

Lemma load_store_ne (h : heap) (p q : option loc) (a : list T) :
  p ≠ q → load (store h p a) q = load h q.
Proof.
  destruct p as [l|], q as [k|]; simpl; try done.
  intros Hne. rewrite list_lookup_insert_ne; [done | congruence].
Qed.

Lemma load_store_eq (h : heap) (p : option loc) (a : list T) :
  length a = length (load h p) → length (load (store h p a) p) = length a.
Proof.
  destruct p as [l|]; simpl; [|done].
  destruct (decide (l < length h)) as [Hl|Hl].
  - by rewrite list_lookup_insert_eq.
  - rewrite list_insert_ge by lia. intros ->. done.
Qed.

Lemma load_store_valid (h : heap) (l : loc) (a : list T) :
  l < length h → load (store h (Some l) a) (Some l) = a.
Proof. intros Hl. simpl. by rewrite list_lookup_insert_eq. Qed.

Lemma length_store (h : heap) (p : option loc) (a : list T) :
  length (store h p a) = length h.
Proof. destruct p; simpl; [apply length_insert | done]. Qed.

Lemma valid_app (h junk : heap) (p : option loc) : valid h p → valid (h ++ junk) p.
Proof. destruct p; simpl; [|done]. rewrite length_app. lia. Qed.

Lemma valid_store (h : heap) (p q : option loc) (a : list T) :
  valid h q → valid (store h p a) q.
Proof. destruct q; simpl; [|done]. by rewrite length_store. Qed.

(** *** Slices *)

Lemma elems_lookup (h : heap) (s : slice) (k : nat) :
  elems h s !! k =
  if decide (k < len s) then load h (ptr s) !! (off s + k) else None.
Proof. unfold elems. rewrite lookup_take, lookup_drop. done. Qed.

Lemma length_elems (h : heap) (s : slice) : wf_slice h s → length (elems h s) = len s.
Proof.
  intros (Hlen & Hcap & _). unfold elems.
  rewrite length_take, length_drop. lia.
Qed.

Lemma wf_slice_app (h junk : heap) (s : slice) : wf_slice h s → wf_slice (h ++ junk) s.
Proof.
  intros (Hlen & Hcap & Hv). repeat split; [done | | by apply valid_app].
  by rewrite load_app.
Qed.

Lemma elems_app_valid (h junk : heap) (s : slice) :
  valid h (ptr s) → elems (h ++ junk) s = elems h s.
Proof. intros Hv. unfold elems. by rewrite load_app. Qed.

Lemma elems_app (h junk : heap) (s : slice) :
  wf_slice h s → elems (h ++ junk) s = elems h s.
Proof. intros (_ & _ & Hv). by apply elems_app_valid. Qed.

(** A write that keeps the length of the array keeps every slice header
    well formed. *)
Lemma wf_slice_store (h : heap) (p : option loc) (a : list T) (s : slice) :
  length a = length (load h p) → wf_slice h s → wf_slice (store h p a) s.
Proof.
  intros Ha (Hlen & Hcap & Hv). repeat split; [done | | by apply valid_store].
  destruct (decide (p = ptr s)) as [->|Hne].
  - rewrite load_store_eq by done. lia.
  - by rewrite load_store_ne.
Qed.

Lemma elems_store_ne (h : heap) (p : option loc) (a : list T) (s : slice) :
  ptr s ≠ p → elems (store h p a) s = elems h s.
Proof. intros Hne. unfold elems. by rewrite load_store_ne. Qed.

(** Writing at or beyond the end of a slice does not change its elements. *)
Lemma elems_store_beyond (h : heap) (s : slice) (k : nat) (xs : list T) :
  off s + len s ≤ k →
  elems (store h (ptr s) (list_inserts k xs (load h (ptr s)))) s = elems h s.
Proof.
  intros Hk. apply list_eq. intros n.
  rewrite !elems_lookup. case_decide; [|done].
  destruct (ptr s) as [l|] eqn:Hp; simpl; [|done].
  destruct (decide (l < length h)) as [Hl|Hl].
  - rewrite list_lookup_insert_eq by done. simpl.
    by rewrite list_lookup_inserts_lt by lia.
  - by rewrite list_insert_ge by lia.
Qed.

Local Arguments load : simpl never.
Local Arguments store : simpl never.
Local Arguments elems : simpl never.

Lemma lookup_inserts (l k : list T) (i j : nat) :
  list_inserts i k l !! j =
  if decide (i ≤ j < i + length k ∧ j < length l) then k !! (j - i) else l !! j.
Proof.
  case_decide as H.
  - destruct H. by apply list_lookup_inserts.
  - destruct (decide (j < i)); [by apply list_lookup_inserts_lt|].
    destruct (decide (i + length k ≤ j)); [by apply list_lookup_inserts_ge|].
    rewrite !lookup_ge_None_2; [done | lia | rewrite length_inserts; lia].
Qed.

Lemma reslice_ok_eq (s : slice) (lo hi : Z) (h : heap) :
  (0 ≤ lo ≤ hi ∧ hi ≤ Z.of_nat (cap s))%Z →
  reslice s lo hi h =
  (Ok (Slice (ptr s) (off s + Z.to_nat lo) (Z.to_nat (hi - lo)) (cap s - Z.to_nat lo)), h).
Proof. intros H. unfold reslice. by rewrite decide_True. Qed.

Lemma reslice_panic_eq (s : slice) (lo hi : Z) (h : heap) :
  ¬ (0 ≤ lo ≤ hi ∧ hi ≤ Z.of_nat (cap s))%Z → reslice s lo hi h = (Panic, h).
Proof. intros H. unfold reslice. by rewrite decide_False. Qed.

Lemma make_ok_eq (n : Z) (h : heap) :
  (0 ≤ n)%Z →
  make n h = (Ok (Slice (Some (length h)) 0 (Z.to_nat n) (Z.to_nat n)),
              h ++ [replicate (Z.to_nat n) zero]).
Proof. intros H. unfold make. by rewrite decide_False by lia. Qed.

Lemma lookup_replicate_dec (n : nat) (x : T) (i : nat) :
  replicate n x !! i = if decide (i < n) then Some x else None.
Proof.
  case_decide; [by apply lookup_replicate_2 | apply lookup_replicate_None; lia].
Qed.

Lemma lookup_app_dec (l1 l2 : list T) (i : nat) :
  (l1 ++ l2) !! i =
  if decide (i < length l1) then l1 !! i else l2 !! (i - length l1).
Proof.
  case_decide; [by apply lookup_app_l | apply lookup_app_r; lia].
Qed.

Ltac lookups :=
  rewrite ?lookup_inserts, ?lookup_take, ?lookup_drop, ?lookup_replicate_dec,
    ?list_lookup_delete, ?lookup_app_dec,
    ?length_inserts, ?length_take, ?length_drop, ?length_replicate.

Ltac solve_lookups :=
  repeat lookups; repeat case_decide; try lia; try done; try (f_equal; lia).

(** Deleting by copying the two halves into a zeroed array, as
    [copyDeleteFromArray] does. *)
Lemma delete_by_copy (a : list T) (o n k : nat) :
  k < n → o + n ≤ length a →
  list_inserts k (take (n - 1 - k) (drop (o + S k) a))
    (list_inserts 0 (take k (drop o a)) (replicate (n - 1) zero)) =
  delete k (take n (drop o a)).
Proof. intros Hk Hn. apply list_eq. intros j. solve_lookups. Qed.

Lemma delete_by_copy_last (a : list T) (o n : nat) :
  0 < n → o + n ≤ length a →
  list_inserts 0 (take (n - 1) (drop o a)) (replicate (n - 1) zero) =
  delete (n - 1) (take n (drop o a)).
Proof. intros Hk Hn. apply list_eq. intros j. solve_lookups. Qed.

(** Deleting by moving the tail down, as [slices.Delete] does. *)
Lemma delete_in_place (a : list T) (o n i j m : nat) :
  i ≤ j ≤ n → o + n ≤ length a → m < n - (j - i) →
  list_inserts (o + i) (take (n - j) (drop (o + j) a)) a !! (o + m) =
  (take i (take n (drop o a)) ++ drop j (take n (drop o a))) !! m.
Proof. intros Hij Hn Hm. solve_lookups. Qed.

Lemma copyDeleteFromArray_ok (h : heap) (s : slice) (i : Z) :
  wf_slice h s → fits_int (len s) → (0 ≤ i < Z.of_nat (len s))%Z →
  copyDeleteFromArray s i h =
  (Ok (Slice (Some (length h)) 0 (len s - 1) (len s - 1)),
   h ++ [delete (Z.to_nat i) (elems h s)]).
Proof.
  intros (Hlen & Hcap & Hv) Hfit Hi.
  unfold copyDeleteFromArray. rewrite int_sub_len by done.
  unfold reslice_to, reslice_from, copy, write, bind at 1.
  rewrite make_ok_eq by lia.
  replace (Z.to_nat (Z.of_nat (len s) - 1)) with (len s - 1) by lia.
  unfold bind. rewrite !reslice_ok_eq by (simpl; lia). cbn.
  rewrite load_app_new, store_app_new, elems_app_valid by done.
  replace (Z.to_nat (i - 0)) with (Z.to_nat i) by lia.
  change (Z.to_nat 0) with 0. rewrite !Nat.add_0_r, Nat.min_id.
  case_decide as Hlast.
  - rewrite reslice_ok_eq by (simpl; lia).
    rewrite (int_add_index (len s)) by done.
    rewrite reslice_ok_eq by (simpl; lia). cbn.
    rewrite load_app_new, store_app_new, elems_app_valid by done.
    do 3 f_equal. unfold elems; cbn.
    replace (Z.to_nat (Z.of_nat (len s - 1) - i)) with (len s - 1 - Z.to_nat i) by lia.
    replace (Z.to_nat (Z.of_nat (len s) - (i + 1))) with (len s - 1 - Z.to_nat i) by lia.
    replace (Z.to_nat (i + 1)) with (S (Z.to_nat i)) by lia.
    rewrite Nat.add_0_r, Nat.min_id, !take_take, !Nat.min_id.
    apply delete_by_copy; lia.
  - cbn. do 3 f_equal. unfold elems; cbn. rewrite take_take, Nat.min_id.
    replace (Z.to_nat i) with (len s - 1) by lia.
    apply delete_by_copy_last; lia.
Qed.

(** Whatever the index, [copyDeleteFromArray] only allocates: the arrays
    that exist when it is called are left as they are, and the slice it
    returns is a new allocation. *)
Lemma copyDeleteFromArray_frame (h : heap) (s : slice) (i : Z) r h' :
  wf_slice h s →
  copyDeleteFromArray s i h = (r, h') →
  (∃ junk, h' = h ++ junk) ∧
  ∀ b, r = Ok b →
       ptr b = Some (length h) ∧ wf_slice h' b ∧ length h < length h'.
Proof.
  intros (Hlen & Hcap & Hv).
  unfold copyDeleteFromArray, make, reslice_to, reslice_from, reslice, copy,
    write, alloc, bind, ret, panic.
  repeat (case_decide; cbn);
    rewrite ?load_app_new, ?store_app_new;
    intros [= <- <-]; (split; [by eexists + (exists []; by rewrite app_nil_r) |]);
    intros b [= <-]; cbn.
  all: unfold wf_slice, valid; cbn;
    rewrite ?load_app_new, ?length_inserts, ?length_replicate, ?length_app;
    simpl; repeat split; (done || lia).
Qed.

Lemma copyDeleteFromArray_panic (h : heap) (s : slice) (i : Z) :
  fits_int (len s) → ¬ (0 ≤ i < Z.of_nat (len s))%Z →
  fst (copyDeleteFromArray s i h) = Panic.
Proof.
  intros Hfit Hi.
  unfold copyDeleteFromArray. rewrite int_sub_len by done.
  unfold make, reslice_to, reslice, alloc, bind, ret, panic.
  repeat (case_decide; cbn); try done; lia.
Qed.

Lemma store_store (h : heap) (p : option loc) (a a' : list T) :
  store (store h p a) p a' = store h p a'.
Proof. destruct p; unfold store; [apply list_insert_insert_eq | done]. Qed.

Lemma load_store_same (h : heap) (p : option loc) (a : list T) :
  valid h p → length a = length (load h p) → load (store h p a) p = a.
Proof.
  destruct p as [l|]; unfold load, store, valid.
  - intros Hl _. by rewrite list_lookup_insert_eq.
  - intros _ Ha. symmetry. by apply nil_length_inv.
Qed.

(** [slices.Delete(s, i, j)] with [0 ≤ i ≤ j ≤ len(s)] returns: it writes
    into the backing array of [s] only, keeps the length of that array, and
    the slice it returns denotes the elements of [s] without [s[i:j]]. *)
Lemma slices_Delete_ok (h : heap) (s : slice) (i j : Z) :
  wf_slice h s → (0 ≤ i ≤ j ∧ j ≤ Z.of_nat (len s))%Z →
  ∃ A',
    slices_Delete s i j h =
      (Ok (Slice (ptr s) (off s) (len s - Z.to_nat (j - i)) (cap s)),
       store h (ptr s) A') ∧
    length A' = length (load h (ptr s)) ∧
    take (len s - Z.to_nat (j - i)) (drop (off s) A') =
      take (Z.to_nat i) (elems h s) ++ drop (Z.to_nat j) (elems h s).
Proof.
  intros (Hlen & Hcap & Hv) Hij.
  unfold slices_Delete, reslice_to, reslice_from, bind.
  rewrite !reslice_ok_eq by (simpl; lia).
  unfold append, append_vals, write, bind, ret. cbn.
  set (xs := elems h _).
  assert (length xs = len s - Z.to_nat j) as Hxs.
  { unfold xs, elems. cbn. rewrite length_take, length_drop. lia. }
  rewrite decide_True by lia.
  replace (off s + Z.to_nat 0) with (off s) by lia.
  replace (Z.to_nat (i - 0) + length xs) with (len s - Z.to_nat (j - i)) by lia.
  replace (cap s - Z.to_nat 0) with (cap s) by lia.
  assert (∀ A1 : list T,
    length A1 = length (load h (ptr s)) →
    (∀ n, n < len s - Z.to_nat (j - i) →
          A1 !! (off s + n) =
          (take (Z.to_nat i) (elems h s) ++ drop (Z.to_nat j) (elems h s)) !! n) →
    take (len s - Z.to_nat (j - i)) (drop (off s) A1) =
      take (Z.to_nat i) (elems h s) ++ drop (Z.to_nat j) (elems h s)) as Hpt.
  { intros A1 HA1 Hn. apply list_eq. intros n.
    rewrite lookup_take, lookup_drop. case_decide; [by apply Hn|].
    symmetry. apply lookup_ge_None_2.
    rewrite length_app, length_take, length_drop, length_elems by done. lia. }
  assert (∀ n, n < len s - Z.to_nat (j - i) →
    list_inserts (off s + Z.to_nat (i - 0)) xs (load h (ptr s)) !! (off s + n) =
    (take (Z.to_nat i) (elems h s) ++ drop (Z.to_nat j) (elems h s)) !! n) as Hshift.
  { intros n Hn. unfold xs, elems. cbn.
    replace (Z.to_nat (i - 0)) with (Z.to_nat i) by lia.
    replace (Z.to_nat (Z.of_nat (len s) - j)) with (len s - Z.to_nat j) by lia.
    apply delete_in_place; lia. }
  destruct delete_clears.
  - rewrite reslice_ok_eq by (simpl; lia). unfold clear, write. cbn.
    rewrite store_store. eexists. split; [done|].
    rewrite load_store_same by (done || by rewrite length_inserts).
    split; [by rewrite !length_inserts|].
    apply Hpt; [by rewrite !length_inserts|].
    intros n Hn. rewrite <- Hshift by done.
    rewrite lookup_inserts. case_decide; [lia | done].
  - cbn. eexists. split; [done|].
    split; [by rewrite length_inserts|].
    apply Hpt; [by rewrite length_inserts | done].
Qed.

Lemma slices_Delete_panic (h : heap) (s : slice) (i j : Z) :
  wf_slice h s → ¬ (0 ≤ i ≤ j ∧ j ≤ Z.of_nat (len s))%Z →
  slices_Delete s i j h = (Panic, h).
Proof.
  intros (Hlen & Hcap & Hv) Hij.
  unfold slices_Delete, reslice_to, reslice_from, reslice, bind, ret, panic.
  repeat (case_decide; cbn); try done; lia.
Qed.

(** *** The methods, unfolded *)

Lemma Get_eq (m : machine) :
  Get m = (Ok (data (self m)), Machine (mem m) (MkSafeSlice (data (self m)) true)).
Proof. reflexivity. Qed.

Lemma Append_eq (elem : T) (m : machine) :
  Append elem m =
  let d := data (self m) in
  if decide (len d + 1 ≤ cap d) then
    (Ok tt,
     Machine (store (mem m) (ptr d)
                (list_inserts (off d + len d) [elem] (load (mem m) (ptr d))))
             (MkSafeSlice (Slice (ptr d) (off d) (len d + 1) (cap d))
                          (appendOnlyAlloc (self m))))
  else
    (Ok tt,
     Machine (mem m ++ [elems (mem m) d ++ [elem] ++
                        replicate (extra (cap d) (len d + 1)) zero])
             (MkSafeSlice (Slice (Some (length (mem m))) 0 (len d + 1)
                                 (len d + 1 + extra (cap d) (len d + 1)))
                          (appendOnlyAlloc (self m)))).
Proof.
  unfold Append, append_vals, bind, get_data, run_heap, set_data, write, alloc, ret.
  cbn. case_decide; reflexivity.
Qed.

Lemma Remove_shared_eq (index : Z) (m : machine) :
  appendOnlyAlloc (self m) = true →
  Remove index m =
  match copyDeleteFromArray (data (self m)) index (mem m) with
  | (Ok b, h) => (Ok tt, Machine h (MkSafeSlice b false))
  | (Panic, h) => (Panic, Machine h (self m))
  end.
Proof.
  intros Hf. unfold Remove, bind, get_appendOnlyAlloc, get_data, run_heap.
  rewrite Hf.
  destruct (copyDeleteFromArray _ _ _) as [[b|] h]; reflexivity.
Qed.

Lemma Remove_exclusive_eq (index : Z) (m : machine) :
  appendOnlyAlloc (self m) = false →
  Remove index m =
  match slices_Delete (data (self m)) index (int_add index 1) (mem m) with
  | (Ok r, h) => (Ok tt, Machine h (MkSafeSlice r false))
  | (Panic, h) => (Panic, Machine h (self m))
  end.
Proof.
  intros Hf. unfold Remove, bind, get_appendOnlyAlloc, get_data, run_heap.
  rewrite Hf.
  destruct (slices_Delete _ _ _ _) as [[r|] h]; cbn; [|reflexivity].
  unfold set_data. cbn. by rewrite Hf.
Qed.

Lemma Swap_self (i : Z) (m : machine) : Swap i i m = (Ok tt, m).
Proof. unfold Swap. by rewrite decide_True. Qed.

Lemma Swap_phases (i j : Z) (m : machine) :
  i ≠ j →
  Swap i j m =
  ((if appendOnlyAlloc (self m) then swap_detach else ret tt) ;;;
   swap_exchange i j) m.
Proof. intros Hij. unfold Swap. by rewrite decide_False. Qed.

(** The defensive copy of [Swap]. *)
Lemma swap_detach_eq (m : machine) :
  wf m →
  ∃ junk l c,
    swap_detach m = (Ok tt, Machine (mem m ++ junk) (MkSafeSlice (Slice (Some l) 0 (len (data (self m))) c) false)) ∧
    length (mem m) ≤ l < length (mem m ++ junk) ∧
    wf_slice (mem m ++ junk) (Slice (Some l) 0 (len (data (self m))) c) ∧
    elems (mem m ++ junk) (Slice (Some l) 0 (len (data (self m))) c) = contents m.
Proof.
  intros Hwf. pose proof (length_elems _ _ Hwf) as Hlen.
  destruct Hwf as (Hlc & Hcap & Hv).
  unfold swap_detach, lit_empty, append, append_vals, bind, get_data, run_heap,
    set_data, set_appendOnlyAlloc, write, alloc, ret.
  cbn. unfold contents.
  rewrite (elems_app _ [[]]) by done. rewrite Hlen.
  case_decide as H0.
  - exists [[]], (length (mem m)), 0.
    assert (len (data (self m)) = 0) as Hz by lia.
    rewrite Hz in *. rewrite load_app_new, store_app_new.
    destruct (elems (mem m) (data (self m))) eqn:He; [|done]. cbn.
    split; [done|]. split; [rewrite length_app; simpl; lia|].
    split; [|done].
    unfold wf_slice, valid. cbn. rewrite load_app_new, length_app. simpl. lia.
  - set (e := Slice (Some (length (mem m))) 0 0 0).
    set (A := elems (mem m ++ [[]]) e ++ elems (mem m) (data (self m)) ++
              replicate (extra 0 (len (data (self m)))) zero).
    exists [[]; A], (length (mem m ++ [[]])), (len (data (self m)) + extra 0 (len (data (self m)))).
    replace (mem m ++ [[]; A]) with ((mem m ++ [[]]) ++ [A])
      by (by rewrite <- (assoc_L (++))).
    split; [done|]. split; [rewrite !length_app; simpl; lia|].
    assert (length A = len (data (self m)) + extra 0 (len (data (self m)))) as HA.
    { unfold A, e, elems at 1. cbn. rewrite take_0, !length_app, length_replicate. simpl. lia. }
    split.
    + unfold wf_slice, valid. cbn. rewrite load_app_new, !length_app. simpl. lia.
    + unfold elems at 1. cbn. rewrite load_app_new. unfold A, e, elems at 1. cbn.
      rewrite take_0, drop_0. simpl. rewrite take_app_length'; done.
Qed.

Lemma machine_eta (m : machine) : Machine (mem m) (self m) = m.
Proof. by destruct m. Qed.

(** The exchange of [Swap], on indices within bounds. *)
Lemma swap_exchange_ok (i j : Z) (m : machine) :
  wf m → in_range m i → in_range m j →
  ∃ a,
    swap_exchange i j m =
      (Ok tt, Machine (store (mem m) (ptr (data (self m))) a) (self m)) ∧
    length a = length (load (mem m) (ptr (data (self m)))) ∧
    ∀ xi xj,
      contents m !! Z.to_nat i = Some xi →
      contents m !! Z.to_nat j = Some xj →
      take (len (data (self m))) (drop (off (data (self m))) a) =
      <[Z.to_nat j := xi]> (<[Z.to_nat i := xj]> (contents m)).
Proof.
  intros (Hlc & Hcap & Hv) Hi Hj. unfold in_range in *.
  unfold swap_exchange, index, set_index, bind, get_data, run_heap, write.
  cbn. rewrite !decide_True by done. cbn.
  rewrite load_store_same by (done || by rewrite length_insert).
  rewrite store_store. eexists. split; [reflexivity|].
  split; [by rewrite !length_insert|].
  intros xi xj Hxi Hxj. unfold contents in *. rewrite Hxi, Hxj. cbn.
  unfold elems. apply list_eq. intros n.
  rewrite !lookup_take, !lookup_drop, !list_lookup_insert, !length_insert,
    !length_take, !length_drop.
  repeat case_decide; try lia; try done.
  all: rewrite ?lookup_take, ?lookup_drop; repeat case_decide; try lia; try done.
Qed.

Lemma swap_exchange_panic (i j : Z) (m : machine) :
  ¬ (in_range m i ∧ in_range m j) → swap_exchange i j m = (Panic, m).
Proof.
  intros Hij. unfold in_range in *.
  unfold swap_exchange, index, set_index, bind, get_data, run_heap, panic.
  cbn. repeat (case_decide; cbn); try tauto; by rewrite machine_eta.
Qed.

(** *** Every call evolves the machine in one of the three ways *)

Lemma evolves_refl (m : machine) : evolves m m.
Proof.
  apply (evolves_alloc _ _ []); [by rewrite app_nil_r | left; done].
Qed.

Lemma evolves_Get (m : machine) : evolves m (snd (Get m)).
Proof.
  rewrite Get_eq. apply (evolves_alloc _ _ []); cbn; [by rewrite app_nil_r | left; done].
Qed.

Lemma evolves_Append (elem : T) (m : machine) :
  wf m → evolves m (snd (Append elem m)).
Proof.
  intros Hwf. pose proof (length_elems _ _ Hwf) as Hlen.
  rewrite Append_eq. cbn. case_decide; cbn.
  - by apply (evolves_append _ _ [elem]).
  - eapply evolves_alloc; cbn; [done|]. right. eexists. split; [done|].
    split; [done|]. unfold wf_slice, valid. cbn.
    rewrite load_app_new, !length_app. cbn [length].
    rewrite length_replicate, Hlen. lia.
Qed.

Lemma evolves_Remove (index : Z) (m : machine) :
  wf m → evolves m (snd (Remove index m)).
Proof.
  intros Hwf. destruct (appendOnlyAlloc (self m)) eqn:Hf.
  - rewrite Remove_shared_eq by done.
    destruct (copyDeleteFromArray _ _ _) as [r h] eqn:Hc.
    destruct (copyDeleteFromArray_frame _ _ _ _ _ Hwf Hc) as [[junk ->] Hb].
    destruct r as [b|]; cbn.
    + destruct (Hb b eq_refl) as (Hp & Hwfb & _).
      apply (evolves_alloc _ _ junk); cbn; [done|]. right. eauto.
    + apply (evolves_alloc _ _ junk); cbn; [done|]. by left.
  - rewrite Remove_exclusive_eq by done.
    destruct (decide (0 ≤ index ≤ int_add index 1 ∧
                      int_add index 1 ≤ Z.of_nat (len (data (self m))))%Z) as [Hr|Hr].
    + destruct (slices_Delete_ok _ _ _ _ Hwf Hr) as (a & -> & Ha & _). cbn.
      apply (evolves_write _ _ a); cbn; try done.
      destruct Hwf as (? & _). lia.
    + rewrite slices_Delete_panic by done. cbn.
      rewrite machine_eta. apply evolves_refl.
Qed.

Lemma evolves_swap_detach (m : machine) :
  wf m →
  ∃ m', swap_detach m = (Ok tt, m') ∧ evolves m m' ∧
        appendOnlyAlloc (self m') = false ∧ contents m' = contents m ∧
        len (data (self m')) = len (data (self m)) ∧
        fresh_storage m m'.
Proof.
  intros Hwf.
  destruct (swap_detach_eq m Hwf) as (junk & l & c & -> & Hl & Hwfc & He).
  eexists. split; [done|]. split.
  - apply (evolves_alloc _ _ junk); cbn; [done|]. right. exists l. split; [done|].
    split; [lia | done].
  - repeat split; try done. + by exists junk. + by exists l.
Qed.

Lemma evolves_swap_exchange (i j : Z) (m : machine) :
  wf m → appendOnlyAlloc (self m) = false →
  evolves m (snd (swap_exchange i j m)).
Proof.
  intros Hwf Hf.
  destruct (decide (in_range m i ∧ in_range m j)) as [[Hi Hj]|Hr].
  - destruct (swap_exchange_ok i j m Hwf Hi Hj) as (a & -> & Ha & _). cbn.
    apply (evolves_write _ _ a); cbn; try done. by destruct Hwf.
  - rewrite swap_exchange_panic by done. apply evolves_refl.
Qed.

(** *** What evolving preserves *)

Lemma evolves_wf (m m' : machine) : wf m → evolves m m' → wf m'.
Proof.
  unfold wf. intros Hwf [junk Hm [[Hd _]|(l & _ & _ & Hw)]|a _ _ Hm Ha Hp Ho Hc Hl|xs Hm Hd Hl _].
  - rewrite Hm, Hd. by apply wf_slice_app.
  - done.
  - pose proof (wf_slice_store _ (ptr (data (self m))) a _ Ha Hwf) as (_ & Hcap & Hv).
    rewrite Hm. unfold wf_slice. rewrite Hp, Ho, Hc in *. done.
  - pose proof (wf_slice_store _ (ptr (data (self m)))
        (list_inserts (off (data (self m)) + len (data (self m))) xs
           (load (mem m) (ptr (data (self m))))) _ (length_inserts _ _ _) Hwf)
      as (_ & Hcap & Hv).
    rewrite Hm, Hd. unfold wf_slice. cbn. done.
Qed.

Lemma valid_ne_fresh (h : heap) (p : option loc) (l : loc) :
  valid h p → length h ≤ l → p ≠ Some l.
Proof. destruct p; unfold valid; [|done]. intros ? ? [= ->]. lia. Qed.

(** A protected view reads the same elements after the machine evolved, and
    stays protected. *)
Lemma evolves_protected (m m' : machine) (v : slice) :
  wf m → protected m v → evolves m m' →
  protected m' v ∧ elems (mem m') v = elems (mem m) v.
Proof.
  intros Hwf [Hv Hal] Hev. unfold protected.
  destruct Hev as [junk Hm [[Hd Hf]|(l & Hp & Hl & Hw)]|a Hf Hf' Hm Ha Hp Ho Hc Hl|xs Hm Hd Hl Hf].
  - rewrite Hm, Hd. split; [|by apply elems_app].
    split; [by apply wf_slice_app|]. intros Heq. destruct (Hal Heq) as (? & ? & ?). auto.
  - rewrite Hm. split; [|by apply elems_app].
    split; [by apply wf_slice_app|]. intros Heq. exfalso.
    destruct Hv as (_ & _ & Hvv). apply (valid_ne_fresh _ _ l Hvv Hl). congruence.
  - assert (ptr v ≠ ptr (data (self m))) as Hne.
    { intros Heq. destruct (Hal Heq) as (? & _). congruence. }
    rewrite Hm. split; [|by apply elems_store_ne].
    split; [by apply wf_slice_store|]. intros Heq. congruence.
  - rewrite Hm, Hd, Hf. cbn. split.
    + split; [apply wf_slice_store; [by rewrite length_inserts | done]|].
      intros Heq. destruct (Hal Heq) as (? & ? & ?). repeat split; [done..|lia].
    + destruct (decide (ptr v = ptr (data (self m)))) as [Heq|Hne].
      * destruct (Hal Heq) as (_ & Ho & Hlv). rewrite <- Heq.
        apply elems_store_beyond. lia.
      * by apply elems_store_ne.
Qed.

(** One call, whatever its outcome, evolves the machine in at most two
    steps ([Swap] on a shared array: the copy, then the exchange). *)
Lemma exec_steps (o : op) (m : machine) :
  wf m → ∃ m1, evolves m m1 ∧ evolves m1 (snd (exec o m)).
Proof.
  intros Hwf. destruct o as [elem|index|i j|]; cbn [exec].
  - exists m. split; [apply evolves_refl | by apply evolves_Append].
  - exists m. split; [apply evolves_refl | by apply evolves_Remove].
  - destruct (decide (i = j)) as [->|Hij].
    { rewrite Swap_self. exists m. split; apply evolves_refl. }
    rewrite Swap_phases by done. unfold bind.
    destruct (appendOnlyAlloc (self m)) eqn:Hf.
    + destruct (evolves_swap_detach m Hwf) as (m1 & -> & Hev & Hf1 & _).
      exists m1. split; [done|]. apply evolves_swap_exchange; [|done].
      by eapply evolves_wf.
    + unfold ret. cbv beta iota. exists m.
      split; [apply evolves_refl | by apply evolves_swap_exchange].
  - exists m. split; [apply evolves_refl|]. unfold bind. rewrite Get_eq. cbn.
    apply (evolves_Get m).
Qed.

Lemma exec_wf (o : op) (m : machine) : wf m → wf (snd (exec o m)).
Proof.
  intros Hwf. destruct (exec_steps o m Hwf) as (m1 & H1 & H2).
  eapply evolves_wf; [|done]. by eapply evolves_wf.
Qed.

Lemma exec_protected (o : op) (m : machine) (v : slice) :
  wf m → protected m v →
  protected (snd (exec o m)) v ∧
  elems (mem (snd (exec o m))) v = elems (mem m) v.
Proof.
  intros Hwf Hv. destruct (exec_steps o m Hwf) as (m1 & H1 & H2).
  destruct (evolves_protected m m1 v Hwf Hv H1) as [Hv1 He1].
  assert (wf m1) as Hwf1 by by eapply evolves_wf.
  destruct (evolves_protected m1 _ v Hwf1 Hv1 H2) as [Hv2 He2].
  split; [done | congruence].
Qed.

(** *** Remove and Swap on indices within bounds *)

Lemma elems_whole (h : heap) (a : list T) (junk : heap) :
  elems (h ++ a :: junk) (Slice (Some (length h)) 0 (length a) (length a)) = a.
Proof. unfold elems. cbn. rewrite load_app_new, drop_0. by apply take_ge. Qed.

Lemma elems_store_same (h : heap) (s s' : slice) (a : list T) :
  valid h (ptr s) → length a = length (load h (ptr s)) →
  ptr s' = ptr s →
  elems (store h (ptr s) a) s' = take (len s') (drop (off s') a).
Proof.
  intros Hv Ha Hp. unfold elems. rewrite Hp. by rewrite load_store_same.
Qed.

Lemma Remove_ok (index : Z) (m : machine) :
  wf m → fits_int (len (data (self m))) → in_range m index →
  ∃ m',
    Remove index m = (Ok tt, m') ∧
    contents m' = delete (Z.to_nat index) (contents m) ∧
    len (data (self m')) = len (data (self m)) - 1 ∧
    appendOnlyAlloc (self m') = false ∧
    if appendOnlyAlloc (self m)
    then mem m' = mem m ++ [delete (Z.to_nat index) (contents m)] ∧
         data (self m') =
           Slice (Some (length (mem m))) 0 (len (data (self m)) - 1)
                 (len (data (self m)) - 1)
    else in_place m m'.
Proof.
  intros Hwf Hfit Hi. unfold in_range in Hi.
  pose proof (length_elems _ _ Hwf) as Hlen.
  destruct (appendOnlyAlloc (self m)) eqn:Hf.
  - rewrite Remove_shared_eq, copyDeleteFromArray_ok by done.
    eexists. split; [done|]. unfold contents. cbn.
    repeat split; try done.
    set (A := delete _ _).
    assert (length A = len (data (self m)) - 1) as <-.
    { unfold A. rewrite length_delete; [lia|]. apply lookup_lt_is_Some. lia. }
    apply elems_whole.
  - rewrite Remove_exclusive_eq, (int_add_index (len (data (self m)))) by done.
    destruct (slices_Delete_ok (mem m) (data (self m)) index (index + 1) Hwf)
      as (a & -> & Ha & He); [lia|].
    replace (Z.to_nat (index + 1 - index)) with 1 in * by lia.
    eexists. split; [done|]. unfold contents, in_place. cbn.
    rewrite elems_store_same by (done || apply Hwf). cbn.
    rewrite He, length_store. repeat split; try done.
    rewrite delete_take_drop. do 2 f_equal. lia.
Qed.

Lemma Remove_panics (index : Z) (m : machine) :
  wf m → fits_int (len (data (self m))) → ¬ in_range m index →
  ∃ junk, Remove index m = (Panic, Machine (mem m ++ junk) (self m)).
Proof.
  intros Hwf Hfit Hi. unfold in_range in Hi.
  destruct (appendOnlyAlloc (self m)) eqn:Hf.
  - rewrite Remove_shared_eq by done.
    pose proof (copyDeleteFromArray_panic (mem m) _ _ Hfit Hi) as Hp.
    destruct (copyDeleteFromArray _ _ _) as [r h] eqn:Hc.
    destruct (copyDeleteFromArray_frame _ _ _ _ _ Hwf Hc) as [[junk ->] _].
    cbn in Hp. subst r. by exists junk.
  - rewrite Remove_exclusive_eq, slices_Delete_panic; try done.
    + exists []. by rewrite app_nil_r.
    + intros Hr. destruct (int_add_cases index) as [Hj|Hj]; lia.
Qed.

Lemma Swap_ok (i j : Z) (m : machine) :
  wf m → i ≠ j → in_range m i → in_range m j →
  ∃ m',
    Swap i j m = (Ok tt, m') ∧
    (∀ xi xj,
       contents m !! Z.to_nat i = Some xi →
       contents m !! Z.to_nat j = Some xj →
       contents m' = <[Z.to_nat j := xi]> (<[Z.to_nat i := xj]> (contents m))) ∧
    len (data (self m')) = len (data (self m)) ∧
    appendOnlyAlloc (self m') = false ∧
    if appendOnlyAlloc (self m) then fresh_storage m m' else in_place m m'.
Proof.
  intros Hwf Hij Hi Hj. rewrite Swap_phases by done. unfold bind.
  assert (∀ m1 : machine,
    wf m1 → in_range m1 i → in_range m1 j →
    ∃ m', swap_exchange i j m1 = (Ok tt, m') ∧
      (∀ xi xj,
         contents m1 !! Z.to_nat i = Some xi →
         contents m1 !! Z.to_nat j = Some xj →
         contents m' = <[Z.to_nat j := xi]> (<[Z.to_nat i := xj]> (contents m1))) ∧
      self m' = self m1 ∧
      ∃ a, mem m' = store (mem m1) (ptr (data (self m1))) a) as Hex.
  { intros m1 Hwf1 Hi1 Hj1.
    destruct (swap_exchange_ok i j m1 Hwf1 Hi1 Hj1) as (a & -> & Ha & He).
    eexists. split; [done|]. split; [|split; [done | by exists a]].
    intros xi xj Hxi Hxj. unfold contents at 1. cbn.
    rewrite elems_store_same by (done || apply Hwf1). by apply He. }
  destruct (appendOnlyAlloc (self m)) eqn:Hf.
  - destruct (evolves_swap_detach m Hwf) as (m1 & -> & Hev & Hf1 & Hc1 & Hl1 & Hfr).
    assert (wf m1) as Hwf1 by by eapply evolves_wf.
    destruct (Hex m1 Hwf1) as (m' & -> & He & Hs & a & Hm);
      [unfold in_range in *; by rewrite Hl1..|].
    exists m'. split; [done|]. rewrite Hs, Hl1, Hf1, <- Hc1.
    repeat split; try done.
    + destruct Hfr as [[junk Hj1] (l & Hp & Hl)].
      rewrite Hm, Hp, Hj1. unfold store.
      rewrite insert_app_r_alt by lia. by eexists.
    + destruct Hfr as [_ (l & Hp & Hl)]. exists l. rewrite Hs. split; [done|].
      by rewrite Hm, length_store.
  - unfold ret. cbv beta iota.
    destruct (Hex m Hwf Hi Hj) as (m' & -> & He & Hs & a & Hm).
    exists m'. split; [done|]. unfold in_place. rewrite Hs, Hf, Hm, length_store.
    done.
Qed.

(** The exchange touches neither the header nor the number of arrays. *)
Lemma swap_exchange_frame (i j : Z) (m : machine) :
  self (snd (swap_exchange i j m)) = self m ∧
  length (mem (snd (swap_exchange i j m))) = length (mem m).
Proof.
  unfold swap_exchange, index, set_index, bind, get_data, run_heap, write, panic.
  cbn. repeat (case_decide; cbn); rewrite ?length_store; done.
Qed.

Lemma Swap_panics (i j : Z) (m : machine) :
  wf m → i ≠ j → ¬ (in_range m i ∧ in_range m j) →
  ∃ m',
    Swap i j m = (Panic, m') ∧
    contents m' = contents m ∧
    appendOnlyAlloc (self m') = false ∧
    if appendOnlyAlloc (self m) then fresh_storage m m' else m' = m.
Proof.
  intros Hwf Hij Hr. rewrite Swap_phases by done. unfold bind.
  destruct (appendOnlyAlloc (self m)) eqn:Hf.
  - destruct (evolves_swap_detach m Hwf) as (m1 & -> & Hev & Hf1 & Hc1 & Hl1 & Hfr).
    rewrite swap_exchange_panic by (unfold in_range in *; by rewrite Hl1).
    by exists m1.
  - unfold ret. cbv beta iota. rewrite swap_exchange_panic by done. by exists m.
Qed.

(** *** Sequences of calls *)

Lemma New_wf (h : heap) : wf (New h).
Proof. unfold wf, wf_slice, New, valid. cbn. unfold load. simpl. lia. Qed.

Lemma run_wf (os : list op) (m : machine) : wf m → wf (run os m).
Proof.
  revert m. induction os as [|o os IH]; intros m Hwf; [done|].
  cbn. by apply IH, exec_wf.
Qed.

Lemma run_protected (os : list op) (m : machine) (v : slice) :
  wf m → protected m v → elems (mem (run os m)) v = elems (mem m) v.
Proof.
  revert m. induction os as [|o os IH]; intros m Hwf Hv; [done|].
  cbn. destruct (exec_protected o m v Hwf Hv) as [Hv' He].
  rewrite IH; [done | by apply exec_wf | done].
Qed.

Lemma Get_protected (m : machine) :
  wf m → wf (snd (Get m)) ∧ protected (snd (Get m)) (data (self m)).
Proof. intros Hwf. rewrite Get_eq. cbn. split; [done|]. split; [done|]. done. Qed.

(** C1. View stability: whatever calls were made before [Get] and whatever
    calls (further [Get]s included) are made after it, the slice [Get]
    returned has the length the container had at the time of the call and
    keeps reading exactly the elements the container held then. *)
Theorem view_stability (h0 : heap) (pre post : list op) :
  let m := run pre (New h0) in
  ∃ v m1,
    Get m = (Ok v, m1) ∧
    len v = length (contents m) ∧
    elems (mem (run post m1)) v = contents m.
Proof.
  intros m. assert (wf m) as Hwf by apply run_wf, New_wf.
  destruct (Get_protected m Hwf) as [Hwf1 Hv].
  exists (data (self m)), (snd (Get m)). split; [by rewrite Get_eq|].
  unfold contents. split; [by rewrite length_elems|].
  by rewrite run_protected.
Qed.

(** C2, as amended.  [Remove] panics exactly on an index outside
    [0, len); the panic leaves the header, the flag and the contents of the
    container as they were (the heap has at most gained an unreachable
    array).  [Swap] panics exactly when the indices differ and one of them
    lies outside [0, len); the panic leaves the contents as they were and
    the flag clear; the container is untouched when the flag was clear, and
    has already moved to its defensive copy when the flag was set. *)
Theorem index_out_of_range (m : machine) (i j : Z) :
  wf m → fits_int (len (data (self m))) →
  (fst (Remove i m) = Panic ↔ ¬ in_range m i) ∧
  (fst (Remove i m) = Panic →
   self (snd (Remove i m)) = self m ∧
   contents (snd (Remove i m)) = contents m ∧
   ∃ junk, mem (snd (Remove i m)) = mem m ++ junk) ∧
  (fst (Swap i j m) = Panic ↔ i ≠ j ∧ ¬ (in_range m i ∧ in_range m j)) ∧
  (fst (Swap i j m) = Panic →
   contents (snd (Swap i j m)) = contents m ∧
   appendOnlyAlloc (self (snd (Swap i j m))) = false ∧
   if appendOnlyAlloc (self m)
   then fresh_storage m (snd (Swap i j m))
   else snd (Swap i j m) = m).
Proof.
  intros Hwf Hfit.
  assert (fst (Remove i m) = Panic ↔ ¬ in_range m i) as HR.
  { split.
    - intros Hp Hi. destruct (Remove_ok i m Hwf Hfit Hi) as (m' & Hm & _).
      by rewrite Hm in Hp.
    - intros Hi. destruct (Remove_panics i m Hwf Hfit Hi) as (junk & ->). done. }
  assert (fst (Swap i j m) = Panic ↔ i ≠ j ∧ ¬ (in_range m i ∧ in_range m j)) as HS.
  { split.
    - intros Hp. destruct (decide (i = j)) as [->|Hij]; [by rewrite Swap_self in Hp|].
      split; [done|]. intros [Hi Hj].
      destruct (Swap_ok i j m Hwf Hij Hi Hj) as (m' & Hm & _). by rewrite Hm in Hp.
    - intros [Hij Hr]. destruct (Swap_panics i j m Hwf Hij Hr) as (m' & -> & _). done. }
  split; [done|]. split; [|split; [done|]].
  - intros Hp. apply HR in Hp.
    destruct (Remove_panics i m Hwf Hfit Hp) as (junk & ->). cbn.
    split; [done|]. split; [|by exists junk].
    unfold contents. cbn. by apply elems_app.
  - intros Hp. apply HS in Hp. destruct Hp as [Hij Hr].
    destruct (Swap_panics i j m Hwf Hij Hr) as (m' & -> & Hc & Hf & Hfr). done.
Qed.

(** *** The flag *)

(** [Append] does the same whatever the flag says: it never takes a
    defensive copy. *)
Lemma Append_flag_independent (elem : T) (m : machine) (f : bool) :
  Append elem (Machine (mem m) (MkSafeSlice (data (self m)) f)) =
  (Ok tt, Machine (mem (snd (Append elem m)))
                  (MkSafeSlice (data (self (snd (Append elem m)))) f)).
Proof. rewrite !Append_eq. cbn. case_decide; reflexivity. Qed.

Lemma Remove_returns (index : Z) (m m' : machine) :
  wf m → Remove index m = (Ok tt, m') →
  appendOnlyAlloc (self m') = false ∧
  if appendOnlyAlloc (self m) then fresh_storage m m' else in_place m m'.
Proof.
  intros Hwf. destruct (appendOnlyAlloc (self m)) eqn:Hf.
  - rewrite Remove_shared_eq by done.
    destruct (copyDeleteFromArray _ _ _) as [r h] eqn:Hc.
    destruct (copyDeleteFromArray_frame _ _ _ _ _ Hwf Hc) as [[junk ->] Hb].
    destruct r as [b|]; [|done]. intros [= <-]. cbn.
    destruct (Hb b eq_refl) as (Hp & _ & Hl).
    split; [done|]. split; cbn; [by exists junk|]. exists (length (mem m)). split; [done | lia].
  - rewrite Remove_exclusive_eq by done.
    destruct (decide (0 ≤ index ≤ int_add index 1 ∧
                      int_add index 1 ≤ Z.of_nat (len (data (self m))))%Z) as [Hr|Hr].
    + destruct (slices_Delete_ok _ _ _ _ Hwf Hr) as (a & -> & Ha & _).
      intros [= <-]. unfold in_place. cbn. by rewrite length_store.
    + by rewrite slices_Delete_panic.
Qed.

Lemma Swap_returns (i j : Z) (m m' : machine) :
  wf m → i ≠ j → Swap i j m = (Ok tt, m') →
  appendOnlyAlloc (self m') = false ∧
  if appendOnlyAlloc (self m) then fresh_storage m m' else in_place m m'.
Proof.
  intros Hwf Hij Hm.
  destruct (decide (in_range m i ∧ in_range m j)) as [[Hi Hj]|Hr].
  - destruct (Swap_ok i j m Hwf Hij Hi Hj) as (m'' & Hm'' & _ & _ & Hf & Hfr).
    rewrite Hm in Hm''. by injection Hm'' as <-.
  - destruct (Swap_panics i j m Hwf Hij Hr) as (m'' & Hm'' & _). congruence.
Qed.

(** C3. The flag is a two-state machine: a new container is [Exclusive];
    a call that returns moves the state as [next] says ([Get] to [Shared],
    [Remove] and [Swap] with distinct indices to [Exclusive], [Append]
    nowhere); a destructive call moves the container to newly allocated
    storage when the state was [Shared] and works in place, allocating
    nothing, when it was [Exclusive]; [Append] does the same in both
    states, and allocates nothing while the capacity lasts. *)
Theorem flag_state_machine (h : heap) (m m' : machine) (o : op) :
  wf m → exec o m = (Ok tt, m') →
  state_of (New h) = Exclusive ∧
  state_of m' = next (state_of m) o ∧
  (destructive o →
   if appendOnlyAlloc (self m) then fresh_storage m m' else in_place m m') ∧
  (∀ elem f,
     o = OpAppend elem →
     exec o (Machine (mem m) (MkSafeSlice (data (self m)) f)) =
     (Ok tt, Machine (mem m') (MkSafeSlice (data (self m')) f))) ∧
  (∀ elem,
     o = OpAppend elem →
     len (data (self m)) < cap (data (self m)) → in_place m m').
Proof.
  intros Hwf Hm. split; [done|]. unfold state_of.
  destruct o as [elem|index|i j|]; cbn [exec next destructive] in *.
  - split; [|split; [done|split]].
    + rewrite Append_eq in Hm. cbn in Hm. by case_decide; injection Hm as <-.
    + intros elem' f [= <-]. rewrite Append_flag_independent. by rewrite Hm.
    + intros _ _ Hlt. rewrite Append_eq in Hm. cbn in Hm.
      rewrite decide_True in Hm by lia. injection Hm as <-.
      unfold in_place. cbn. by rewrite length_store.
  - destruct (Remove_returns index m m' Hwf Hm) as [-> Hfr].
    split; [done|]. split; [done|]. by split; intros.
  - case_decide as Hij.
    + subst j. rewrite Swap_self in Hm. injection Hm as <-.
      split; [by destruct (appendOnlyAlloc _)|]. split; [done|]. by split; intros.
    + destruct (Swap_returns i j m m' Hwf Hij Hm) as [-> Hfr].
      split; [done|]. split; [done|]. by split; intros.
  - unfold bind in Hm. rewrite Get_eq in Hm. cbn in Hm. injection Hm as <-.
    cbn. split; [done|]. split; [done|]. by split; intros.
Qed.

(** C4. [Remove] on an index within bounds returns; the length drops by
    one and the contents are the old elements before the index followed by
    the old elements after it; the flag ends clear.  With the flag set the
    result lives in a newly allocated array of exactly [n - 1] elements;
    with the flag clear nothing is allocated and the container keeps its
    backing array. *)
Theorem Remove_correct (m : machine) (index : Z) :
  wf m → fits_int (len (data (self m))) → in_range m index →
  ∃ m',
    Remove index m = (Ok tt, m') ∧
    len (data (self m')) = len (data (self m)) - 1 ∧
    contents m' =
      take (Z.to_nat index) (contents m) ++ drop (S (Z.to_nat index)) (contents m) ∧
    appendOnlyAlloc (self m') = false ∧
    if appendOnlyAlloc (self m)
    then mem m' = mem m ++ [contents m'] ∧
         data (self m') =
           Slice (Some (length (mem m))) 0 (len (data (self m)) - 1)
                 (len (data (self m)) - 1)
    else in_place m m'.
Proof.
  intros Hwf Hfit Hi.
  destruct (Remove_ok index m Hwf Hfit Hi) as (m' & Hm & Hc & Hl & Hf & Hb).
  exists m'. rewrite <- delete_take_drop, Hc.
  repeat split; try done.
Qed.

(** C5. [Swap] on distinct indices within bounds returns; the elements at
    the two indices are exchanged, every other position and the length are
    as before, and the flag ends clear.  With the flag set the exchange
    happens in newly allocated storage, the arrays that existed before are
    left as they were; with the flag clear it happens in place and nothing
    is allocated. *)
Theorem Swap_correct (m : machine) (i j : Z) :
  wf m → i ≠ j → in_range m i → in_range m j →
  ∃ m',
    Swap i j m = (Ok tt, m') ∧
    length (contents m') = length (contents m) ∧
    contents m' !! Z.to_nat i = contents m !! Z.to_nat j ∧
    contents m' !! Z.to_nat j = contents m !! Z.to_nat i ∧
    (∀ k, k ≠ Z.to_nat i → k ≠ Z.to_nat j → contents m' !! k = contents m !! k) ∧
    appendOnlyAlloc (self m') = false ∧
    if appendOnlyAlloc (self m) then fresh_storage m m' else in_place m m'.
Proof.
  intros Hwf Hij Hi Hj.
  destruct (Swap_ok i j m Hwf Hij Hi Hj) as (m' & Hm & Hc & Hl & Hf & Hb).
  pose proof (length_elems _ _ Hwf) as Hlen. fold (contents m) in Hlen.
  unfold in_range in *.
  destruct (lookup_lt_is_Some_2 (contents m) (Z.to_nat i)) as [xi Hxi]; [lia|].
  destruct (lookup_lt_is_Some_2 (contents m) (Z.to_nat j)) as [xj Hxj]; [lia|].
  specialize (Hc xi xj Hxi Hxj).
  exists m'. rewrite Hc, !length_insert, Hxi, Hxj.
  split; [done|]. split; [done|].
  split; [rewrite list_lookup_insert_ne, list_lookup_insert_eq; [done | lia | lia]|].
  split; [rewrite list_lookup_insert_eq; [done | rewrite length_insert; lia]|].
  split; [|done].
  intros k Hki Hkj. by rewrite !list_lookup_insert_ne.
Qed.

(** C6. [Swap(i, i)] on an index within bounds returns and leaves the
    whole machine as it was: contents, flag and heap (so no copy was made),
    whatever the flag says. *)
Theorem Swap_self_noop (m : machine) (i : Z) :
  in_range m i → Swap i i m = (Ok tt, m).
Proof. intros _. apply Swap_self. Qed.

(** C10. [Swap(i, i)] returns for every integer [i], negative and too large
    ones included, and leaves the machine as it was: the test [i == j] comes
    before every access to the storage. *)
Theorem Swap_self_any_index (m : machine) (i : Z) :
  fst (Swap i i m) = Ok tt ∧ snd (Swap i i m) = m.
Proof. by rewrite Swap_self. Qed.

(** *** After the copy *)

Lemma exec_keeps_flag_clear (o : op) (m : machine) :
  ¬ is_get o → appendOnlyAlloc (self m) = false →
  appendOnlyAlloc (self (snd (exec o m))) = false.
Proof.
  intros Hg Hf. destruct o as [elem|index|i j|]; cbn [exec is_get] in *.
  - rewrite Append_eq. cbn. by case_decide.
  - rewrite Remove_exclusive_eq by done.
    by destruct (slices_Delete _ _ _ _) as [[r|] h].
  - destruct (decide (i = j)) as [->|Hij]; [by rewrite Swap_self|].
    rewrite Swap_phases by done. unfold bind. rewrite Hf. unfold ret. cbv beta iota.
    destruct (swap_exchange_frame i j m) as [-> _]. done.
  - done.
Qed.

Lemma run_keeps_flag_clear (os : list op) (m : machine) :
  Forall (λ o, ¬ is_get o) os → appendOnlyAlloc (self m) = false →
  appendOnlyAlloc (self (run os m)) = false.
Proof.
  intros Hos. revert m. induction Hos as [|o os Ho _ IH]; intros m Hf; [done|].
  cbn. by apply IH, exec_keeps_flag_clear.
Qed.

(** A destructive call on a clear flag allocates nothing and keeps the
    backing array, whether it returns or panics. *)
Lemma destructive_in_place (o : op) (m : machine) :
  wf m → destructive o → appendOnlyAlloc (self m) = false →
  in_place m (snd (exec o m)).
Proof.
  intros Hwf Hd Hf. destruct o as [elem|index|i j|]; cbn [exec destructive] in *;
    try done.
  - destruct (Remove index m) as [[[]|] m'] eqn:Hm; cbn.
    + destruct (Remove_returns index m m' Hwf Hm) as [_ Hp]. by rewrite Hf in Hp.
    + rewrite Remove_exclusive_eq in Hm by done.
      destruct (decide (0 ≤ index ≤ int_add index 1 ∧
                        int_add index 1 ≤ Z.of_nat (len (data (self m))))%Z) as [Hr|Hr].
      * by destruct (slices_Delete_ok _ _ _ _ Hwf Hr) as (a & Ha & _); rewrite Ha in Hm.
      * rewrite slices_Delete_panic in Hm by done. by injection Hm as <-.
  - rewrite Swap_phases by done. unfold bind. rewrite Hf. unfold ret. cbv beta iota.
    destruct (swap_exchange_frame i j m) as [Hs Hl]. unfold in_place. by rewrite Hs, Hl.
Qed.

(** C7. Copy-then-exclusive: once a destructive call made after [Get] has
    returned, the flag is clear, stays clear through every later call that
    is not [Get], and each later destructive call works in place: it
    allocates nothing and the container keeps its backing array. *)
Theorem copy_then_exclusive (m m1 : machine) (d1 d2 : op) (mid : list op) :
  wf m →
  destructive d1 → exec d1 (snd (Get m)) = (Ok tt, m1) →
  Forall (λ o, ¬ is_get o) mid →
  destructive d2 →
  fresh_storage m m1 ∧
  appendOnlyAlloc (self (run mid m1)) = false ∧
  in_place (run mid m1) (snd (exec d2 (run mid m1))).
Proof.
  intros Hwf Hd1 Hm1 Hmid Hd2.
  destruct (Get_protected m Hwf) as [Hwfg _].
  assert (appendOnlyAlloc (self m1) = false ∧ fresh_storage (snd (Get m)) m1) as [Hf1 Hfr].
  { destruct d1 as [elem|index|i j|]; cbn [exec destructive] in *; try done.
    - by destruct (Remove_returns index _ m1 Hwfg Hm1).
    - by destruct (Swap_returns i j _ m1 Hwfg Hd1 Hm1). }
  assert (wf m1) as Hwf1.
  { replace m1 with (snd (exec d1 (snd (Get m)))) by by rewrite Hm1.
    by apply exec_wf. }
  split; [done|].
  split; [by apply run_keeps_flag_clear|].
  apply destructive_in_place; [by apply run_wf | done | by apply run_keeps_flag_clear].
Qed.

(** *** Eviction from the front *)

Lemma for_range_Remove (k : nat) (m : machine) :
  wf m → fits_int (len (data (self m))) → k ≤ len (data (self m)) →
  ∃ m',
    for_range k (Remove 0) m = (Ok tt, m') ∧
    contents m' = drop k (contents m) ∧
    len (data (self m')) = len (data (self m)) - k.
Proof.
  revert m. induction k as [|k IH]; intros m Hwf Hfit Hk.
  { exists m. cbn. split; [done|]. split; [done | lia]. }
  destruct (Remove_ok 0 m Hwf Hfit) as (m1 & Hm1 & Hc1 & Hl1 & _);
    [unfold in_range; lia|].
  assert (wf m1) as Hwf1.
  { replace m1 with (snd (exec (OpRemove 0) m)) by (cbn [exec]; by rewrite Hm1).
    by apply exec_wf. }
  destruct (IH m1 Hwf1) as (m' & Hm' & Hc' & Hl'); [unfold fits_int in *; lia | lia |].
  exists m'. cbn [for_range]. unfold bind at 1. rewrite Hm1.
  split; [done|]. rewrite Hc', Hc1, Hl', Hl1. cbn [Z.to_nat].
  split; [|lia]. change (Z.to_nat 0) with 0.
  destruct (contents m) as [|x xs]; [cbn; by rewrite drop_nil | done].
Qed.

(** C8. Front eviction: [for range a.Get() { a.Remove(0) }] on a container
    of [n] elements makes [n] iterations, each of which returns, the
    container holding the old elements from [k] on after [k] of them; the
    loop leaves the container empty, so that the next [Get] returns a slice
    of length 0. *)
Theorem front_eviction (m : machine) :
  wf m → fits_int (len (data (self m))) →
  ∃ v m1 m',
    Get m = (Ok v, m1) ∧ len v = length (contents m) ∧
    (∀ k, k ≤ len v →
          ∃ mk, for_range k (Remove 0) m1 = (Ok tt, mk) ∧
                contents mk = drop k (contents m)) ∧
    evict_front m = (Ok tt, m') ∧
    contents m' = [] ∧
    ∃ v' m'', Get m' = (Ok v', m'') ∧ len v' = 0.
Proof.
  intros Hwf Hfit.
  pose proof (length_elems _ _ Hwf) as Hlen. fold (contents m) in Hlen.
  destruct (Get_protected m Hwf) as [Hwf1 _].
  exists (data (self m)), (snd (Get m)).
  destruct (for_range_Remove (len (data (self m))) (snd (Get m)) Hwf1)
    as (m' & Hm' & Hc' & Hl'); [done..|].
  exists m'. split; [by rewrite Get_eq|]. split; [done|].
  split.
  { intros k Hk.
    destruct (for_range_Remove k (snd (Get m)) Hwf1) as (mk & Hmk & Hck & _);
      [done..|].
    by exists mk. }
  split; [unfold evict_front, bind; by rewrite Get_eq|].
  split.
  - rewrite Hc'. rewrite Get_eq. unfold contents at 1. cbn.
    fold (contents m). apply drop_ge. lia.
  - exists (data (self m')), (snd (Get m')). split; [by rewrite Get_eq|].
    rewrite Hl', Get_eq. cbn. lia.
Qed.

(** *** The two branches of Remove *)

(** C9. On an index within bounds the copying branch of [Remove]
    ([copyDeleteFromArray]) and the in-place branch ([slices.Delete]) both
    return, and the slices they return denote the same elements: the
    elements of the argument without the one at the index. *)
Theorem Remove_branches_agree (h : heap) (s : slice) (i : Z) :
  wf_slice h s → fits_int (len s) → (0 ≤ i < Z.of_nat (len s))%Z →
  ∃ b h1 d h2,
    copyDeleteFromArray s i h = (Ok b, h1) ∧
    slices_Delete s i (int_add i 1) h = (Ok d, h2) ∧
    elems h1 b = elems h2 d ∧
    elems h2 d = delete (Z.to_nat i) (elems h s).
Proof.
  intros Hwf Hfit Hi. pose proof (length_elems _ _ Hwf) as Hlen.
  rewrite copyDeleteFromArray_ok, (int_add_index (len s)) by done.
  destruct (slices_Delete_ok h s i (i + 1) Hwf) as (a & -> & Ha & He); [lia|].
  replace (Z.to_nat (i + 1 - i)) with 1 in * by lia.
  do 4 eexists. split; [done|]. split; [done|].
  rewrite elems_store_same by (done || apply Hwf). cbn. rewrite He.
  assert (take (Z.to_nat i) (elems h s) ++ drop (Z.to_nat (i + 1)) (elems h s) =
          delete (Z.to_nat i) (elems h s)) as ->.
  { rewrite delete_take_drop. do 2 f_equal. lia. }
  split; [|done].
  set (A := delete _ _).
  assert (length A = len s - 1) as <-.
  { unfold A. rewrite length_delete; [lia|]. apply lookup_lt_is_Some. lia. }
  apply elems_whole.
Qed.

(** *** Append *)

Lemma Append_ok (elem : T) (m : machine) :
  wf m →
  ∃ m',
    Append elem m = (Ok tt, m') ∧
    contents m' = contents m ++ [elem] ∧
    len (data (self m')) = S (len (data (self m))) ∧
    appendOnlyAlloc (self m') = appendOnlyAlloc (self m).
Proof.
  intros Hwf. pose proof (length_elems _ _ Hwf) as Hlen.
  destruct Hwf as (Hlc & Hcap & Hv).
  rewrite Append_eq. cbn. case_decide as Hfit; eexists; (split; [done|]);
    unfold contents; cbn; (split; [|split; [lia | done]]).
  - rewrite elems_store_same by (done || by rewrite length_insert). cbn.
    apply list_eq. intros n. unfold elems.
    rewrite lookup_take, lookup_drop, list_lookup_insert, lookup_app_dec,
      length_take, length_drop, lookup_take, lookup_drop.
    rewrite (Nat.min_l (len (data (self m)))) by lia.
    repeat case_decide; try lia; try done.
    + by replace (n - len (data (self m))) with 0 by lia.
    + symmetry. apply lookup_ge_None_2. cbn. lia.
  - unfold elems at 1. cbn. rewrite load_app_new, drop_0.
    set (E := elems (mem m) (data (self m))) in *. set (R := replicate _ _).
    change (E ++ elem :: R) with (E ++ [elem] ++ R). rewrite (assoc_L (++)).
    apply take_app_length'. rewrite length_app. cbn. lia.
Qed.

(** X1. [Append] returns on every well-formed container: the contents gain
    the element at the end, the length grows by one, and the flag and the
    well-formedness are kept.  While the capacity lasts it writes in place;
    when the capacity is used up the container moves to a new array and the
    arrays that existed before are left as they were. *)
Theorem Append_correct (elem : T) (m : machine) :
  wf m →
  ∃ m',
    Append elem m = (Ok tt, m') ∧
    contents m' = contents m ++ [elem] ∧
    len (data (self m')) = S (len (data (self m))) ∧
    appendOnlyAlloc (self m') = appendOnlyAlloc (self m) ∧
    wf m' ∧
    if decide (len (data (self m)) < cap (data (self m)))
    then in_place m m'
    else fresh_storage m m'.
Proof.
  intros Hwf. destruct (Append_ok elem m Hwf) as (m' & Hm & Hc & Hl & Hf).
  assert (wf m') as Hwf'.
  { replace m' with (snd (exec (OpAppend elem) m)) by (cbn [exec]; by rewrite Hm).
    by apply exec_wf. }
  exists m'. do 5 (split; [done|]).
  rewrite Append_eq in Hm. cbn in Hm.
  destruct (decide (len (data (self m)) < cap (data (self m)))) as [Hlt|Hlt].
  - rewrite decide_True in Hm by lia. injection Hm as <-.
    unfold in_place. cbn. by rewrite length_store.
  - rewrite decide_False in Hm by lia. injection Hm as <-.
    split; cbn; [by eexists|]. eexists. split; [done|].
    rewrite length_app. cbn. lia.
Qed.

(** *** Reachable states *)

(** X3. Every state a caller can reach from [New], by any calls in any
    order and through any panics, is well formed: the slice of the container
    lies within an allocated array, and the container holds as many
    elements as its length says. *)
Theorem reachable_well_formed (h : heap) (os : list op) :
  wf (run os (New h)) ∧
  length (contents (run os (New h))) = len (data (self (run os (New h)))).
Proof.
  assert (wf (run os (New h))) as Hwf by apply run_wf, New_wf.
  split; [done | by apply length_elems].
Qed.

(** *** The functional deletion *)

Lemma copyDeleteFromArray_header (h : heap) (s : slice) (i : Z) b h' :
  copyDeleteFromArray s i h = (Ok b, h') →
  len b = cap b ∧ off b = 0.
Proof.
  unfold copyDeleteFromArray, make, reslice_to, reslice_from, reslice, copy,
    write, alloc, bind, ret, panic.
  repeat (case_decide; cbn); intros [= <- _]; done.
Qed.

(** X4. [copyDeleteFromArray] is functional on every index, in bounds or
    not, returning or panicking: the arrays that existed before the call
    are left as they were, so its argument still denotes the same elements.
    When it returns, its result is a newly allocated slice without spare
    capacity. *)
Theorem copyDeleteFromArray_functional (h : heap) (s : slice) (i : Z) r h' :
  wf_slice h s →
  copyDeleteFromArray s i h = (r, h') →
  (∃ junk, h' = h ++ junk) ∧
  elems h' s = elems h s ∧
  ∀ b, r = Ok b →
       ptr b = Some (length h) ∧ length h < length h' ∧
       len b = cap b ∧ wf_slice h' b.
Proof.
  intros Hwf Hc.
  destruct (copyDeleteFromArray_frame _ _ _ _ _ Hwf Hc) as [[junk ->] Hb].
  split; [by exists junk|]. split; [by apply elems_app|].
  intros b ->. destruct (Hb b eq_refl) as (Hp & Hw & Hl).
  destruct (copyDeleteFromArray_header _ _ _ _ _ Hc) as [Hlc _]. done.
Qed.

(** *** Round trips *)

(** X5. Appending an element and removing the last index gives back the
    contents the container had, whatever the flag says. *)
Theorem Append_Remove_last (elem : T) (m : machine) :
  wf m → fits_int (S (len (data (self m)))) →
  ∃ m1 m2,
    Append elem m = (Ok tt, m1) ∧
    Remove (Z.of_nat (len (data (self m)))) m1 = (Ok tt, m2) ∧
    contents m2 = contents m.
Proof.
  intros Hwf Hfit. pose proof (length_elems _ _ Hwf) as Hlen.
  fold (contents m) in Hlen.
  destruct (Append_ok elem m Hwf) as (m1 & Hm1 & Hc1 & Hl1 & _).
  assert (wf m1) as Hwf1.
  { replace m1 with (snd (exec (OpAppend elem) m)) by (cbn [exec]; by rewrite Hm1).
    by apply exec_wf. }
  destruct (Remove_ok (Z.of_nat (len (data (self m)))) m1 Hwf1)
    as (m2 & Hm2 & Hc2 & _); [by rewrite Hl1 | unfold in_range; lia |].
  exists m1, m2. split; [done|]. split; [done|].
  rewrite Hc2, Hc1, Nat2Z.id, <- Hlen.
  rewrite delete_take_drop, take_app_length, drop_app_ge by lia.
  replace (S (length (contents m)) - length (contents m)) with 1 by lia.
  cbn. by rewrite app_nil_r.
Qed.

Lemma Swap_contents (i j : Z) (m : machine) :
  wf m → in_range m i → in_range m j →
  ∃ m' xi xj,
    Swap i j m = (Ok tt, m') ∧ wf m' ∧
    contents m !! Z.to_nat i = Some xi ∧
    contents m !! Z.to_nat j = Some xj ∧
    contents m' = <[Z.to_nat j := xi]> (<[Z.to_nat i := xj]> (contents m)) ∧
    len (data (self m')) = len (data (self m)).
Proof.
  intros Hwf Hi Hj.
  pose proof (length_elems _ _ Hwf) as Hlen. fold (contents m) in Hlen.
  unfold in_range in *.
  destruct (lookup_lt_is_Some_2 (contents m) (Z.to_nat i)) as [xi Hxi]; [lia|].
  destruct (lookup_lt_is_Some_2 (contents m) (Z.to_nat j)) as [xj Hxj]; [lia|].
  destruct (decide (i = j)) as [->|Hij].
  - exists m, xi, xj. rewrite Swap_self. do 4 (split; [done|]). split; [|done].
    assert (xi = xj) as -> by congruence.
    by rewrite list_insert_insert_eq, list_insert_id.
  - destruct (Swap_ok i j m Hwf Hij) as (m' & Hm & Hc & Hl & _); [done..|].
    exists m', xi, xj. split; [done|]. split.
    { replace m' with (snd (exec (OpSwap i j) m)) by (cbn [exec]; by rewrite Hm).
      by apply exec_wf. }
    do 2 (split; [done|]). split; [by apply Hc | done].
Qed.

(** X6. Swapping the same two positions twice gives back the contents the
    container had, whatever the flag says. *)
Theorem Swap_involutive (i j : Z) (m : machine) :
  wf m → in_range m i → in_range m j →
  ∃ m1 m2,
    Swap i j m = (Ok tt, m1) ∧ Swap i j m1 = (Ok tt, m2) ∧
    contents m2 = contents m.
Proof.
  intros Hwf Hi Hj.
  destruct (Swap_contents i j m Hwf Hi Hj) as (m1 & xi & xj & Hm1 & Hwf1 & Hxi & Hxj & Hc1 & Hl1).
  destruct (Swap_contents i j m1 Hwf1) as (m2 & yi & yj & Hm2 & _ & Hyi & Hyj & Hc2 & _);
    [unfold in_range in *; by rewrite Hl1..|].
  exists m1, m2. split; [done|]. split; [done|].
  rewrite Hc2. rewrite Hc1 in *. apply list_eq. intros n.
  pose proof (lookup_lt_Some _ _ _ Hxi). pose proof (lookup_lt_Some _ _ _ Hxj).
  rewrite !list_lookup_insert, !length_insert in *.
  repeat case_decide; destruct_and?; simplify_eq; try lia; try done; try congruence.

Qed.

(** X7. [Swap(i, j)] and [Swap(j, i)] leave the same contents. *)
Theorem Swap_symmetric (i j : Z) (m : machine) :
  wf m → in_range m i → in_range m j →
  ∃ m1 m2,
    Swap i j m = (Ok tt, m1) ∧ Swap j i m = (Ok tt, m2) ∧
    contents m1 = contents m2.
Proof.
  intros Hwf Hi Hj.
  destruct (Swap_contents i j m Hwf Hi Hj) as (m1 & xi & xj & Hm1 & _ & Hxi & Hxj & Hc1 & _).
  destruct (Swap_contents j i m Hwf Hj Hi) as (m2 & yj & yi & Hm2 & _ & Hyj & Hyi & Hc2 & _).
  exists m1, m2. split; [done|]. split; [done|].
  rewrite Hc1, Hc2. assert (yi = xi) as -> by congruence.
  assert (yj = xj) as -> by congruence.
  destruct (decide (Z.to_nat i = Z.to_nat j)) as [Heq|Hne].
  - rewrite Heq in *. assert (xi = xj) as -> by congruence. done.
  - by apply list_insert_insert_ne.
Qed.

(** *** Loops over a view *)

Lemma range_from_Append (v : slice) (E : list T) (n i : nat) (m : machine) :
  wf m → protected m v → elems (mem m) v = E → i + n ≤ len v →
  ∃ m',
    range_from v Append i n m = (Ok tt, m') ∧
    contents m' = contents m ++ take n (drop i E) ∧
    appendOnlyAlloc (self m') = appendOnlyAlloc (self m).
Proof.
  revert i m. induction n as [|n IH]; intros i m Hwf Hv HE Hin.
  { exists m. cbn. by rewrite take_0, app_nil_r. }
  pose proof (length_elems _ _ (proj1 Hv)) as Hlen. rewrite HE in Hlen.
  destruct (lookup_lt_is_Some_2 E i) as [x Hx]; [lia|].
  cbn [range_from]. unfold bind at 1, run_heap at 1, index.
  rewrite decide_True by lia. rewrite HE, Nat2Z.id, Hx. cbn [default from_option id].
  rewrite machine_eta. unfold bind at 1.
  destruct (Append_ok x m Hwf) as (m1 & Hm1 & Hc1 & _ & Hf1). rewrite Hm1.
  assert (m1 = snd (exec (OpAppend x) m)) as Heq by (cbn [exec]; by rewrite Hm1).
  destruct (exec_protected (OpAppend x) m v Hwf Hv) as [Hv1 He1].
  rewrite <- Heq in Hv1, He1.
  destruct (IH (S i) m1) as (m' & Hm' & Hc' & Hf'); [|done|congruence|lia|].
  { rewrite Heq. by apply exec_wf. }
  exists m'. split; [done|]. split; [|congruence].
  rewrite Hc', Hc1, (drop_S _ _ _ Hx), <- (assoc_L (++)). done.
Qed.

(** X2. Appending during a traversal: [for _, value := range a.Get()
    { a.Append(value) }] returns, visits exactly the elements the container
    held when the loop started, and leaves the container holding them
    twice over. *)
Theorem append_while_range_doubles (m : machine) :
  wf m →
  ∃ m', append_while_range m = (Ok tt, m') ∧
        contents m' = contents m ++ contents m.
Proof.
  intros Hwf. destruct (Get_protected m Hwf) as [Hwf1 Hv].
  pose proof (length_elems _ _ Hwf) as Hlen.
  unfold append_while_range, bind, for_range_values. rewrite Get_eq.
  rewrite Get_eq in Hwf1, Hv. cbn [snd] in *.
  destruct (range_from_Append (data (self m)) (contents m) (len (data (self m))) 0 _
              Hwf1 Hv) as (m' & Hm' & Hc' & _); [done | lia |].
  exists m'. split; [done|]. rewrite Hc', drop_0. unfold contents at 1. cbn.
  fold (contents m). by rewrite take_ge by (unfold contents; lia).
Qed.

(** *** What the loops allocate *)

Lemma for_range_Remove_in_place (k : nat) (m : machine) :
  wf m → fits_int (len (data (self m))) → k ≤ len (data (self m)) →
  appendOnlyAlloc (self m) = false →
  ∃ m',
    for_range k (Remove 0) m = (Ok tt, m') ∧
    length (mem m') = length (mem m).
Proof.
  revert m. induction k as [|k IH]; intros m Hwf Hfit Hk Hf.
  { by exists m. }
  destruct (Remove_ok 0 m Hwf Hfit) as (m1 & Hm1 & _ & Hl1 & Hf1 & Hp);
    [unfold in_range; lia|].
  rewrite Hf in Hp. destruct Hp as [Hmem _].
  assert (wf m1) as Hwf1.
  { replace m1 with (snd (exec (OpRemove 0) m)) by (cbn [exec]; by rewrite Hm1).
    by apply exec_wf. }
  destruct (IH m1 Hwf1) as (m' & Hm' & Hl'); [unfold fits_int in *; lia | lia | done |].
  exists m'. cbn [for_range]. unfold bind at 1. rewrite Hm1.
  split; [done | congruence].
Qed.

(** X8. The safe eviction loop [for range a.Get() { a.Remove(0) }] pays
    for one copy only: on a container that is not empty it allocates
    exactly one array, however many elements it removes, and on an empty
    container it allocates nothing. *)
Theorem evict_front_allocates_once (m : machine) :
  wf m → fits_int (len (data (self m))) →
  ∃ m',
    evict_front m = (Ok tt, m') ∧
    length (mem m') =
      length (mem m) + (if decide (len (data (self m)) = 0) then 0 else 1).
Proof.
  intros Hwf Hfit. destruct (Get_protected m Hwf) as [Hwf1 _].
  unfold evict_front, bind at 1. rewrite Get_eq. rewrite Get_eq in Hwf1.
  cbn [snd] in Hwf1. cbv beta iota.
  destruct (len (data (self m))) as [|k] eqn:Hlen.
  { eexists. cbn [for_range]. split; [done|]. rewrite decide_True by done. cbn. lia. }
  set (m0 := Machine (mem m) (MkSafeSlice (data (self m)) true)) in *.
  destruct (Remove_ok 0 m0 Hwf1) as (m1 & Hm1 & _ & Hl1 & Hf1 & Hmem & _);
    [unfold m0; cbn; by rewrite Hlen | unfold in_range, m0; cbn; lia |].
  assert (wf m1) as Hwf2.
  { replace m1 with (snd (exec (OpRemove 0) m0)) by (cbn [exec]; by rewrite Hm1).
    by apply exec_wf. }
  destruct (for_range_Remove_in_place k m1 Hwf2) as (m' & Hm' & Hl');
    [unfold m0 in *; cbn in *; unfold fits_int in *; lia
    |unfold m0 in *; cbn in *; lia | done |].
  exists m'. cbn [for_range]. unfold bind at 1. rewrite Hm1.
  split; [done|]. rewrite Hl', Hmem, length_app. cbn. rewrite decide_False by lia. done.
Qed.

(** X9. The loop the documentation calls inefficient,
    [for len(a.Get()) > 0 { a.Remove(0) }], is correct and copies on every
    iteration: given fuel for its [n + 1] tests it leaves by its condition
    with the container empty, having allocated one array for each of the
    [n] elements it removed. *)
Theorem drain_copies_each_time (fuel : nat) (m : machine) :
  wf m → fits_int (len (data (self m))) → len (data (self m)) < fuel →
  ∃ m',
    drain fuel m = (Ok true, m') ∧
    contents m' = [] ∧
    length (mem m') = length (mem m) + len (data (self m)).
Proof.
  revert m. induction fuel as [|fuel IH]; intros m Hwf Hfit Hlt; [lia|].
  destruct (Get_protected m Hwf) as [Hwf1 _].
  pose proof (length_elems _ _ Hwf) as Hlen.
  cbn [drain]. unfold bind at 1. rewrite Get_eq. rewrite Get_eq in Hwf1.
  cbn [snd] in Hwf1.
  set (m0 := Machine (mem m) (MkSafeSlice (data (self m)) true)) in *.
  case_decide as Hpos.
  - destruct (Remove_ok 0 m0 Hwf1) as (m1 & Hm1 & _ & Hl1 & _ & Hmem & _);
      [done | unfold in_range, m0; cbn; lia |].
    assert (wf m1) as Hwf2.
    { replace m1 with (snd (exec (OpRemove 0) m0)) by (cbn [exec]; by rewrite Hm1).
      by apply exec_wf. }
    unfold m0 in Hl1, Hmem. cbn in Hl1, Hmem.
    destruct (IH m1 Hwf2) as (m' & Hm' & Hc' & Hl');
      [unfold fits_int in *; lia | lia |].
    exists m'. unfold bind at 1. rewrite Hm1. split; [done|]. split; [done|].
    rewrite Hl', Hmem, length_app, Hl1. cbn. lia.
  - exists m0. split; [done|]. unfold contents, m0. cbn.
    split; [|lia]. apply nil_length_inv. lia.
Qed.

(** *** The loop the documentation warns against *)

Lemma odds_length (l : list T) : length (odds l) = length l / 2.
Proof.
  assert (length (odds l) = length l / 2 ∧
          ∀ a, length (odds (a :: l)) = S (length l) / 2) as [H _]; [|done].
  induction l as [|b l [IH1 IH2]]; [done|]. split; [apply IH2|].
  intros a. cbn [odds length]. rewrite IH1.
  replace (S (S (length l))) with (1 * 2 + length l) by lia.
  by rewrite Nat.div_add_l by lia.
Qed.

Lemma remove_each_spec (fuel : nat) (P R : list T) (m : machine) :
  wf m → fits_int (S (len (data (self m)))) →
  contents m = P ++ R → length R < fuel →
  ∃ m',
    remove_each fuel (Z.of_nat (length P)) m = (Ok true, m') ∧
    contents m' = P ++ odds R.
Proof.
  revert P R m. induction fuel as [|fuel IH]; intros P R m Hwf Hfit Hc Hlt; [lia|].
  destruct (Get_protected m Hwf) as [Hwf1 _].
  pose proof (length_elems _ _ Hwf) as Hlen. fold (contents m) in Hlen.
  rewrite Hc, length_app in Hlen.
  cbn [remove_each]. unfold bind at 1. rewrite Get_eq. rewrite Get_eq in Hwf1.
  cbn [snd] in Hwf1.
  set (m0 := Machine (mem m) (MkSafeSlice (data (self m)) true)) in *.
  assert (contents m0 = P ++ R) as Hc0 by done.
  destruct R as [|a R].
  { rewrite decide_False by (cbn in *; lia).
    exists m0. split; [done|]. by rewrite Hc0. }
  rewrite decide_True by (cbn in *; lia).
  destruct (Remove_ok (Z.of_nat (length P)) m0 Hwf1) as (m1 & Hm1 & Hc1 & Hl1 & _);
    [unfold m0, fits_int in *; cbn in *; lia | unfold in_range, m0; cbn in *; lia |].
  assert (wf m1) as Hwf2.
  { replace m1 with (snd (exec (OpRemove (Z.of_nat (length P))) m0))
      by (cbn [exec]; by rewrite Hm1).
    by apply exec_wf. }
  unfold m0 in Hl1. cbn in Hl1.
  assert (contents m1 = P ++ R) as Hc1'.
  { rewrite Hc1, Hc0, Nat2Z.id, delete_take_drop, take_app_length.
    rewrite drop_app_ge by lia.
    replace (S (length P) - length P) with 1 by lia. done. }
  unfold bind at 1. rewrite Hm1.
  assert (int_add (Z.of_nat (length P)) 1 = Z.of_nat (S (length P))) as Hnext.
  { rewrite (int_add_index (S (length P))); [lia| |lia].
    unfold fits_int in *. cbn [length] in Hlen. lia. }
  rewrite Hnext.
  destruct R as [|b R].
  - destruct fuel as [|fuel]; [cbn in Hlt; lia|].
    cbn [remove_each]. unfold bind at 1. rewrite Get_eq.
    rewrite decide_False by (cbn in *; lia).
    eexists. split; [done|]. unfold contents. cbn. fold (contents m1).
    by rewrite Hc1'.
  - replace (S (length P)) with (length (P ++ [b])) by (rewrite length_app; cbn; lia).
    destruct (IH (P ++ [b]) R m1 Hwf2) as (m' & Hm' & Hc');
      [unfold fits_int in *; cbn in *; lia
      |by rewrite Hc1', <- (assoc_L (++))
      |cbn in *; lia|].
    exists m'. split; [done|]. rewrite Hc', <- (assoc_L (++)). done.
Qed.

(** X10. The loop the documentation calls wrong,
    [for i := 0; i < len(a.Get()); i++ { a.Remove(i) }], does not empty the
    container: given fuel for its tests it leaves by its condition with
    exactly the elements that stood at the odd positions, that is half of
    them (rounded down). *)
Theorem remove_each_keeps_odds (fuel : nat) (m : machine) :
  wf m → fits_int (S (len (data (self m)))) → len (data (self m)) < fuel →
  ∃ m',
    remove_each fuel 0 m = (Ok true, m') ∧
    contents m' = odds (contents m) ∧
    length (contents m') = len (data (self m)) / 2.
Proof.
  intros Hwf Hfit Hlt. pose proof (length_elems _ _ Hwf) as Hlen.
  fold (contents m) in Hlen.
  destruct (remove_each_spec fuel [] (contents m) m Hwf Hfit) as (m' & Hm' & Hc');
    [done | lia |].
  exists m'. split; [done|]. split; [done|].
  rewrite Hc'. cbn [app]. by rewrite odds_length, Hlen.
Qed.

(** *** Without views, on the empty container, and back to back *)

(** X11. A container whose [Get] is never called never takes a defensive
    copy: after any calls other than [Get] on a new container, a [Remove]
    or a [Swap] allocates nothing and the container keeps its backing
    array, whether the call returns or panics. *)
Theorem no_view_no_copy (h : heap) (os : list op) (d : op) :
  Forall (λ o, ¬ is_get o) os → destructive d →
  appendOnlyAlloc (self (run os (New h))) = false ∧
  in_place (run os (New h)) (snd (exec d (run os (New h)))).
Proof.
  intros Hos Hd.
  assert (appendOnlyAlloc (self (run os (New h))) = false) as Hf
    by by apply run_keeps_flag_clear.
  split; [done|]. apply destructive_in_place; [apply run_wf, New_wf | done..].
Qed.

(** X12. On an empty container every [Remove], and every [Swap] with
    distinct indices, panics, whatever the indices and the flag, and the
    container stays empty. *)
Theorem empty_container_panics (m : machine) (i j : Z) :
  wf m → len (data (self m)) = 0 →
  fst (Remove i m) = Panic ∧ contents (snd (Remove i m)) = [] ∧
  (i ≠ j → fst (Swap i j m) = Panic ∧ contents (snd (Swap i j m)) = []).
Proof.
  intros Hwf Hz. pose proof (length_elems _ _ Hwf) as Hlen.
  fold (contents m) in Hlen. rewrite Hz in Hlen. apply nil_length_inv in Hlen.
  destruct (Remove_panics i m Hwf) as (junk & ->);
    [unfold fits_int, int_max; rewrite Hz; lia | unfold in_range; lia |].
  split; [done|]. split.
  - unfold contents. cbn. rewrite elems_app by done. done.
  - intros Hij. destruct (Swap_panics i j m Hwf Hij) as (m' & -> & Hc & _);
      [unfold in_range; lia|].
    split; [done|]. cbn. congruence.
Qed.

(** X13. With the flag clear [Remove] keeps the capacity of the container,
    so that an [Append] right after it writes in place: the two calls
    together allocate nothing. *)
Theorem Remove_then_Append_in_place (elem : T) (index : Z) (m : machine) :
  wf m → fits_int (len (data (self m))) → in_range m index →
  appendOnlyAlloc (self m) = false →
  ∃ m1 m2,
    Remove index m = (Ok tt, m1) ∧ Append elem m1 = (Ok tt, m2) ∧
    cap (data (self m1)) = cap (data (self m)) ∧
    in_place m m2 ∧
    contents m2 = delete (Z.to_nat index) (contents m) ++ [elem].
Proof.
  intros Hwf Hfit Hi Hf.
  destruct (Remove_ok index m Hwf Hfit Hi) as (m1 & Hm1 & Hc1 & Hl1 & _ & Hp).
  rewrite Hf in Hp. destruct Hp as [Hmem Hptr].
  assert (cap (data (self m1)) = cap (data (self m))) as Hcap.
  { rewrite Remove_exclusive_eq, (int_add_index (len (data (self m)))) in Hm1 by done.
    destruct (slices_Delete_ok (mem m) (data (self m)) index (index + 1) Hwf)
      as (a & Ha & _); [unfold in_range in Hi; lia|].
    rewrite Ha in Hm1. by injection Hm1 as <-. }
  assert (wf m1) as Hwf1.
  { replace m1 with (snd (exec (OpRemove index) m)) by (cbn [exec]; by rewrite Hm1).
    by apply exec_wf. }
  destruct (Append_ok elem m1 Hwf1) as (m2 & Hm2 & Hc2 & _).
  exists m1, m2. do 3 (split; [done|]). split; [|by rewrite Hc2, Hc1].
  rewrite Append_eq in Hm2. cbn in Hm2.
  rewrite decide_True in Hm2
    by (destruct Hwf as (Hlc & _); unfold in_range in Hi; lia).
  injection Hm2 as <-. unfold in_place. cbn. rewrite length_store. split; congruence.
Qed.

End Runtime.

(** ** The container of the package example

    [a := safeslice.New[int](); a.Append(1); a.Append(2); a.Append(3)],
    with a runtime that grows a full slice to twice the length needed and a
    [slices.Delete] that zeroes the vacated tail. *)

Definition double (c n : nat) : nat := n.

Definition example : @machine Z :=
  run 0%Z double true [OpAppend 1%Z; OpAppend 2%Z; OpAppend 3%Z] (New []).

(** The example after [a.Get()]. *)
Definition example_shared : @machine Z := snd (Get example).

(** A container of one element, after [Get]. *)
Definition single_shared : @machine Z :=
  run 0%Z double true [OpAppend 7%Z; OpGet] (New []).

Example example_contents : contents example = [1; 2; 3]%Z.
Proof. by vm_compute. Qed.

Lemma example_wf : wf example ∧ wf example_shared ∧ wf single_shared.
Proof. vm_compute. repeat split; lia. Qed.

(** Scenarios of the test suite. *)
Example scenario_remove :
  contents (run 0%Z double true [OpAppend 7%Z; OpRemove 0] (New [])) = [].
Proof. by vm_compute. Qed.

Example scenario_swap :
  contents (run 0%Z double true
              [OpAppend 1%Z; OpAppend 2%Z; OpAppend 3%Z; OpSwap 1 2] (New [])) =
  [1; 3; 2]%Z.
Proof. by vm_compute. Qed.

Example scenario_remove_after_get :
  contents (run 0%Z double true
              [OpAppend 1%Z; OpAppend 2%Z; OpGet; OpRemove 0] (New [])) =
  [2]%Z.
Proof. by vm_compute. Qed.

Example scenario_swap_after_get :
  contents (run 0%Z double true
              [OpAppend 1%Z; OpAppend 2%Z; OpAppend 3%Z; OpGet; OpSwap 0 2] (New [])) =
  [3; 2; 1]%Z.
Proof. by vm_compute. Qed.

Example scenario_append_while_range :
  contents (run 0%Z double true
              [OpAppend 1%Z; OpAppend 2%Z; OpGet; OpAppend 1%Z; OpAppend 2%Z] (New [])) =
  [1; 2; 1; 2]%Z.
Proof. by vm_compute. Qed.

(** C2, as stated, fails on [single_shared]: [Swap(5, 5)] returns although 5
    is not below the length 1, and [Swap(0, 5)] panics after it has cleared
    the flag and moved the container to another array. *)
Lemma index_out_of_range_counterexample :
  len (data (self single_shared)) = 1 ∧
  fst (Swap 0%Z double 5 5 single_shared) = Ok tt ∧
  fst (Swap 0%Z double 0 5 single_shared) = Panic ∧
  appendOnlyAlloc (self single_shared) = true ∧
  appendOnlyAlloc (self (snd (Swap 0%Z double 0 5 single_shared))) = false ∧
  ptr (data (self single_shared)) = Some 0 ∧
  ptr (data (self (snd (Swap 0%Z double 0 5 single_shared)))) = Some 2.
Proof. vm_compute. repeat split. Qed.

Lemma index_out_of_range_witness :
  fst (Remove 0%Z double true 3 example_shared) = Panic ∧
  contents (snd (Remove 0%Z double true 3 example_shared)) = [1; 2; 3]%Z ∧
  fst (Swap 0%Z double 3 0 example_shared) = Panic ∧
  contents (snd (Swap 0%Z double 3 0 example_shared)) = [1; 2; 3]%Z.
Proof.
  destruct (index_out_of_range 0%Z double true example_shared 3 0)
    as (HR & HR' & HS & HS').
  - vm_compute. repeat split; lia.
  - by vm_compute.
  - assert (fst (Remove 0%Z double true 3 example_shared) = Panic) as Hp.
    { apply HR. vm_compute. intros [_ H]. discriminate H. }
    assert (fst (Swap 0%Z double 3 0 example_shared) = Panic) as Hq.
    { apply HS. split; [done|]. vm_compute. intros [[_ H] _]. discriminate H. }
    destruct (HR' Hp) as (_ & -> & _). destruct (HS' Hq) as (-> & _).
    repeat split; done.
Defined.

Lemma flag_state_machine_witness :
  state_of (snd (exec 0%Z double true (OpRemove 0) example_shared)) = Exclusive ∧
  fresh_storage example_shared (snd (exec 0%Z double true (OpRemove 0) example_shared)).
Proof.
  destruct (flag_state_machine 0%Z double true [] example_shared
              (snd (exec 0%Z double true (OpRemove 0) example_shared)) (OpRemove 0))
    as (_ & Hn & Hd & _).
  - vm_compute. repeat split; lia.
  - by vm_compute.
  - split; [exact Hn | exact (Hd I)].
Defined.

Lemma Remove_correct_witness :
  ∃ m', Remove 0%Z double true 1 example_shared = (Ok tt, m') ∧
        contents m' = [1; 3]%Z ∧ mem m' = mem example_shared ++ [[1; 3]%Z].
Proof.
  destruct (Remove_correct 0%Z double true example_shared 1)
    as (m' & Hm & _ & Hc & _ & Hmem & _).
  - vm_compute. repeat split; lia.
  - by vm_compute.
  - by vm_compute.
  - exists m'. split; [exact Hm|]. rewrite Hmem, Hc. split; by vm_compute.
Defined.

Lemma Swap_correct_witness :
  ∃ m', Swap 0%Z double 0 2 example_shared = (Ok tt, m') ∧
        contents m' !! 0 = Some 3%Z ∧ contents m' !! 1 = Some 2%Z ∧
        contents m' !! 2 = Some 1%Z.
Proof.
  destruct (Swap_correct 0%Z double example_shared 0 2)
    as (m' & Hm & _ & Hi & Hj & Hk & _).
  - vm_compute. repeat split; lia.
  - done.
  - by vm_compute.
  - by vm_compute.
  - exists m'. split; [exact Hm|].
    split; [exact Hi|]. split; [|exact Hj]. by apply (Hk 1).
Defined.

Lemma Swap_self_noop_witness :
  Swap 0%Z double 2 2 example_shared = (Ok tt, example_shared).
Proof. apply Swap_self_noop. by vm_compute. Defined.

Lemma copy_then_exclusive_witness :
  let m1 := snd (exec 0%Z double true (OpRemove 0) (snd (Get example))) in
  let m2 := run 0%Z double true [OpAppend 4%Z; OpSwap 0 1] m1 in
  appendOnlyAlloc (self m2) = false ∧
  in_place m2 (snd (exec 0%Z double true (OpRemove 1) m2)).
Proof.
  intros m1 m2.
  destruct (copy_then_exclusive 0%Z double true example m1 (OpRemove 0) (OpRemove 1)
              [OpAppend 4%Z; OpSwap 0 1]) as (_ & Hf & Hp).
  - vm_compute. repeat split; lia.
  - exact I.
  - by vm_compute.
  - repeat constructor; intros [].
  - exact I.
  - split; [exact Hf | exact Hp].
Defined.

Lemma front_eviction_witness :
  ∃ m', evict_front 0%Z double true example = (Ok tt, m') ∧ contents m' = [].
Proof.
  destruct (front_eviction 0%Z double true example)
    as (v & m1 & m' & _ & _ & _ & Hm & Hc & _).
  - vm_compute. repeat split; lia.
  - by vm_compute.
  - exists m'. split; [exact Hm | exact Hc].
Defined.

Lemma Remove_branches_agree_witness :
  ∃ b h1 d h2,
    copyDeleteFromArray 0%Z (data (self example)) 1 (mem example) = (Ok b, h1) ∧
    slices_Delete 0%Z double true (data (self example)) 1 (int_add 1 1) (mem example) =
      (Ok d, h2) ∧
    elems h1 b = [1; 3]%Z ∧ elems h2 d = [1; 3]%Z.
Proof.
  destruct (Remove_branches_agree 0%Z double true (mem example) (data (self example)) 1)
    as (b & h1 & d & h2 & Hb & Hd & He & Hs).
  - vm_compute. repeat split; lia.
  - by vm_compute.
  - by vm_compute.
  - exists b, h1, d, h2. split; [exact Hb|]. split; [exact Hd|].
    rewrite He, Hs. split; by vm_compute.
Defined.

(** ** The further properties, on the package example *)

Lemma Append_correct_witness :
  ∃ m', Append 0%Z double 4%Z example_shared = (Ok tt, m') ∧
        contents m' = [1; 2; 3; 4]%Z ∧ in_place example_shared m'.
Proof.
  destruct (Append_correct 0%Z double true 4%Z example_shared)
    as (m' & Hm & Hc & _ & _ & _ & Hp).
  - vm_compute. repeat split; lia.
  - exists m'. split; [exact Hm|]. split; [rewrite Hc; by vm_compute|].
    exact Hp.
Defined.

Lemma copyDeleteFromArray_functional_witness :
  elems (snd (copyDeleteFromArray 0%Z (data (self example)) 1 (mem example)))
        (data (self example)) = [1; 2; 3]%Z.
Proof.
  destruct (copyDeleteFromArray_functional 0%Z (mem example) (data (self example)) 1
              (fst (copyDeleteFromArray 0%Z (data (self example)) 1 (mem example)))
              (snd (copyDeleteFromArray 0%Z (data (self example)) 1 (mem example))))
    as (_ & He & _).
  - vm_compute. repeat split; lia.
  - by vm_compute.
  - rewrite He. by vm_compute.
Defined.

Lemma Append_Remove_last_witness :
  ∃ m1 m2,
    Append 0%Z double 4%Z example_shared = (Ok tt, m1) ∧
    Remove 0%Z double true 3 m1 = (Ok tt, m2) ∧
    contents m2 = [1; 2; 3]%Z.
Proof.
  destruct (Append_Remove_last 0%Z double true 4%Z example_shared)
    as (m1 & m2 & H1 & H2 & Hc).
  - vm_compute. repeat split; lia.
  - by vm_compute.
  - exists m1, m2. split; [exact H1|]. split; [exact H2|]. rewrite Hc. by vm_compute.
Defined.

Lemma Swap_involutive_witness :
  ∃ m1 m2,
    Swap 0%Z double 0 2 example_shared = (Ok tt, m1) ∧
    Swap 0%Z double 0 2 m1 = (Ok tt, m2) ∧
    contents m2 = [1; 2; 3]%Z.
Proof.
  destruct (Swap_involutive 0%Z double true 0 2 example_shared)
    as (m1 & m2 & H1 & H2 & Hc).
  - vm_compute. repeat split; lia.
  - by vm_compute.
  - by vm_compute.
  - exists m1, m2. split; [exact H1|]. split; [exact H2|]. rewrite Hc. by vm_compute.
Defined.

Lemma Swap_symmetric_witness :
  ∃ m1 m2,
    Swap 0%Z double 0 2 example = (Ok tt, m1) ∧
    Swap 0%Z double 2 0 example = (Ok tt, m2) ∧
    contents m1 = contents m2.
Proof.
  apply (Swap_symmetric 0%Z double true 0 2 example).
  - vm_compute. repeat split; lia.
  - by vm_compute.
  - by vm_compute.
Defined.

Lemma append_while_range_doubles_witness :
  ∃ m', append_while_range 0%Z double example = (Ok tt, m') ∧
        contents m' = [1; 2; 3; 1; 2; 3]%Z.
Proof.
  destruct (append_while_range_doubles 0%Z double true example) as (m' & Hm & Hc).
  - vm_compute. repeat split; lia.
  - exists m'. split; [exact Hm|]. rewrite Hc. by vm_compute.
Defined.

Lemma evict_front_allocates_once_witness :
  ∃ m', evict_front 0%Z double true example = (Ok tt, m') ∧
        length (mem m') = S (length (mem example)).
Proof.
  destruct (evict_front_allocates_once 0%Z double true example) as (m' & Hm & Hl).
  - vm_compute. repeat split; lia.
  - by vm_compute.
  - exists m'. split; [exact Hm|]. rewrite Hl. by vm_compute.
Defined.

Lemma drain_copies_each_time_witness :
  ∃ m', drain 0%Z double true 4 example = (Ok true, m') ∧
        contents m' = [] ∧ length (mem m') = length (mem example) + 3.
Proof.
  apply (drain_copies_each_time 0%Z double true 4 example).
  - vm_compute. repeat split; lia.
  - by vm_compute.
  - vm_compute. lia.
Defined.

Lemma remove_each_keeps_odds_witness :
  ∃ m', remove_each 0%Z double true 4 0 example = (Ok true, m') ∧
        contents m' = [2]%Z.
Proof.
  destruct (remove_each_keeps_odds 0%Z double true 4 example) as (m' & Hm & Hc & _).
  - vm_compute. repeat split; lia.
  - by vm_compute.
  - vm_compute. lia.
  - exists m'. split; [exact Hm|]. rewrite Hc. by vm_compute.
Defined.

Lemma no_view_no_copy_witness :
  in_place example (snd (exec 0%Z double true (OpSwap 0 2) example)).
Proof.
  apply (no_view_no_copy 0%Z double true []
           [OpAppend 1%Z; OpAppend 2%Z; OpAppend 3%Z] (OpSwap 0 2)).
  - repeat constructor; intros [].
  - by vm_compute.
Defined.

Lemma empty_container_panics_witness :
  fst (Remove 0%Z double true 0 (snd (Get (@New Z [])))) = Panic ∧
  fst (Swap 0%Z double 0 1 (snd (Get (@New Z [])))) = Panic.
Proof.
  destruct (empty_container_panics 0%Z double true (snd (Get (@New Z []))) 0 1)
    as (HR & _ & HS).
  - vm_compute. repeat split; lia.
  - by vm_compute.
  - split; [exact HR|]. apply HS. by vm_compute.
Defined.

Lemma Remove_then_Append_in_place_witness :
  ∃ m1 m2,
    Remove 0%Z double true 1 example = (Ok tt, m1) ∧
    Append 0%Z double 4%Z m1 = (Ok tt, m2) ∧
    in_place example m2 ∧ contents m2 = [1; 3; 4]%Z.
Proof.
  destruct (Remove_then_Append_in_place 0%Z double true 4%Z 1 example)
    as (m1 & m2 & H1 & H2 & _ & Hp & Hc).
  - vm_compute. repeat split; lia.
  - by vm_compute.
  - by vm_compute.
  - by vm_compute.
  - exists m1, m2. split; [exact H1|]. split; [exact H2|]. split; [exact Hp|].
    rewrite Hc. by vm_compute.
Defined.
